(** * Jobly: the partial-update builder, the search builders and the
      Company / Job resource models

    A shallow embedding of [helpers/sql.js], [models/company.js] and
    [models/job.js].  The models talk to the relational store only through
    [db.query(text, params)]; a model operation is therefore a small program
    over that one effect (type [Prog]), built exactly as the JavaScript
    builds its statement text and its positional parameter list.  A
    reference store that understands the statements the models issue gives
    the programs a state to run against. *)

From Stdlib Require Import Ascii.
From stdpp Require Import base strings list gmap pretty.

Local Open Scope Z_scope.

(** ** JavaScript values and objects *)

#[local] Set Warnings "-register-all".

Module Js.

(** The JavaScript values that travel through the models.  An object is the
    list of its own enumerable properties in the order [Object.keys]
    enumerates them (for keys that are not array indices this is insertion
    order). *)
Inductive Value : Type :=
  | VUndefined
  | VNull
  | VBool (b : bool)
  | VNum (n : Z)
  | VStr (s : string)
  | VObj (props : list (string * Value)).

Abbreviation Obj := (list (string * Value)).

(** The double quote and the line feed, for the statement texts. *)
Definition dq : string := String "034"%char EmptyString.
Definition nl : string := String "010"%char EmptyString.

(** [Object.keys(o)] and [Object.values(o)]. *)
Definition keys (o : Obj) : list string := o.*1.
Definition values (o : Obj) : list Value := o.*2.

(** [o[k]] on an object: the first own property named [k], else
    [undefined]. *)
Fixpoint prop (o : Obj) (k : string) : Value :=
  match o with
  | [] => VUndefined
  | (k', v) :: o' => if String.eqb k' k then v else prop o' k
  end.

(** [k in o] for own properties. *)
Definition has_prop (o : Obj) (k : string) : bool :=
  existsb (String.eqb k) (keys o).

(** [v.k] on a value: property access on an object, [undefined] on the
    primitives that are not [undefined]/[null] (the models never read a
    property of those two). *)
Definition get (v : Value) (k : string) : Value :=
  match v with
  | VObj o => prop o k
  | _ => VUndefined
  end.

(** [delete o[k]]. *)
Definition delete_prop (o : Obj) (k : string) : Obj :=
  filter (λ kv, negb (String.eqb kv.1 k) = true) o.

(** [o[k] = v]: an existing property keeps its place, a new one goes last. *)
Fixpoint set_prop (o : Obj) (k : string) (v : Value) : Obj :=
  match o with
  | [] => [(k, v)]
  | (k', v') :: o' =>
      if String.eqb k' k then (k', v) :: o' else (k', v') :: set_prop o' k v
  end.

(** Truthiness ([ToBoolean]). *)
Definition truthy (v : Value) : bool :=
  match v with
  | VUndefined | VNull => false
  | VBool b => b
  | VNum n => negb (n =? 0)
  | VStr s => negb (String.eqb s EmptyString)
  | VObj _ => true
  end.

(** String conversion inside a template literal ([ToString]). *)
Definition to_string (v : Value) : string :=
  match v with
  | VUndefined => "undefined"
  | VNull => "null"
  | VBool true => "true"
  | VBool false => "false"
  | VNum n => pretty n
  | VStr s => s
  | VObj _ => "[object Object]"
  end.

(** [a || b] where [a] is a string-valued lookup that may be [undefined]. *)
Definition or_string (a : option string) (b : string) : string :=
  match a with
  | Some s => if truthy (VStr s) then s else b
  | None => b
  end.

(** The properties every plain object inherits from [Object.prototype], and
    the text each has inside a template literal: the native functions print
    as Node prints them, and [__proto__] reads the prototype itself, an
    object.  All are truthy. *)
Definition prototype_functions : list string :=
  [ "constructor"; "__defineGetter__"; "__defineSetter__"; "hasOwnProperty";
    "__lookupGetter__"; "__lookupSetter__"; "isPrototypeOf";
    "propertyIsEnumerable"; "toString"; "valueOf"; "toLocaleString" ].

Definition inherited (k : string) : option string :=
  if String.eqb k "__proto__" then Some "[object Object]"
  else if String.eqb k "constructor"
  then Some "function Object() { [native code] }"
  else if existsb (String.eqb k) prototype_functions
  then Some ("function " +:+ k +:+ "() { [native code] }")
  else None.

(** [rows[0]] of a result set. *)
Definition first_row (rows : list Obj) : Value :=
  match rows with
  | r :: _ => VObj r
  | [] => VUndefined
  end.

(** [arr.join(sep)] on an array of strings. *)
Definition join (sep : string) (l : list string) : string :=
  String.concat sep l.

End Js.
Import Js.

(** ** Errors *)

(** The error classes the models throw ([expressError]), and the opaque
    failure of the store itself. *)
Inductive Exn : Type :=
  | BadRequestError (message : string)
  | NotFoundError (message : string)
  | DbError (message : string).

(** ** [helpers/sql.js] *)

Module Sql.

Record PartialUpdate : Type := { setCols : string; values : list Value }.

(** [`${jsToSql[colName] || colName}`], for a translation map that is a
    plain object with the own properties [jsToSql]: an own property is read
    first, a name it does not have is looked up in [Object.prototype]. *)
Definition column_name (jsToSql : gmap string string) (colName : string)
  : string :=
  match jsToSql !! colName with
  | Some s => or_string (Some s) colName
  | None =>
      match inherited colName with
      | Some t => t
      | None => colName
      end
  end.

(** One [`"${jsToSql[colName] || colName}"=$${idx + 1}`] fragment. *)
Definition fragment (jsToSql : gmap string string) (idx : nat) (colName : string)
  : string :=
  dq +:+ column_name jsToSql colName +:+ dq +:+ "=$"
     +:+ pretty (idx + 1)%nat.

Definition sqlForPartialUpdate (dataToUpdate : Obj) (jsToSql : gmap string string)
  : Exn + PartialUpdate :=
  let keys := Js.keys dataToUpdate in
  if (length keys =? 0)%nat then inl (BadRequestError "No data")
  else
    let cols := imap (fragment jsToSql) keys in
    inr {| setCols := join ", " cols; values := Js.values dataToUpdate |}.

End Sql.

(** ** Programs over [db.query] *)

(** A model operation awaits [db.query(text, params)] some number of times,
    then returns or throws.  [Query text params k] issues one statement and
    continues with the rows of its result. *)
Inductive Prog (A : Type) : Type :=
  | Ret (a : A)
  | Throw (e : Exn)
  | Query (text : string) (params : list Value) (k : list Obj → Prog A).
Arguments Ret {A} a.
Arguments Throw {A} e.
Arguments Query {A} text params k.

Fixpoint bind {A B} (p : Prog A) (f : A → Prog B) : Prog B :=
  match p with
  | Ret a => f a
  | Throw e => Throw e
  | Query text params k => Query text params (λ rows, bind (k rows) f)
  end.

(** [await db.query(text, params)], giving [result.rows]. *)
Definition query (text : string) (params : list Value) : Prog (list Obj) :=
  Query text params Ret.

(** A synchronous call that may throw. *)
Definition call {A} (r : Exn + A) : Prog A :=
  match r with
  | inl e => Throw e
  | inr a => Ret a
  end.

(** [x ← p; q] is stdpp's notation for [mbind]. *)
#[global] Instance Prog_ret : MRet Prog := @Ret.
#[global] Instance Prog_bind : MBind Prog := λ A B f p, bind p f.

(** A statement as the store receives it. *)
Record Statement : Type := { text : string; params : list Value }.

(** The store behind [db.query]: given a statement and its state, rows or a
    failure, and the next state. *)
Definition Handler (S : Type) : Type :=
  string → list Value → S → (Exn + list Obj) * S.

(** What running an operation leaves behind: its result or the exception it
    threw, the store afterwards, and the statements it issued, in order. *)
Record Outcome (S A : Type) : Type :=
  { result : Exn + A; store : S; issued : list Statement }.
Arguments result {S A} _.
Arguments store {S A} _.
Arguments issued {S A} _.

Fixpoint exec_from {S A} (db : Handler S) (p : Prog A) (st : S)
    (log : list Statement) : Outcome S A :=
  match p with
  | Ret a => {| result := inr a; store := st; issued := log |}
  | Throw e => {| result := inl e; store := st; issued := log |}
  | Query text params k =>
      let log' := log ++ [{| text := text; params := params |}] in
      match db text params st with
      | (inr rows, st') => exec_from db (k rows) st' log'
      | (inl e, st') => {| result := inl e; store := st'; issued := log' |}
      end
  end.

Definition exec {S A} (db : Handler S) (p : Prog A) (st : S) : Outcome S A :=
  exec_from db p st [].

(** ** Search filters *)

(** The optional search parameters, typed as the data model has them; [None]
    is an absent ([undefined]) field. *)
Record CompanyFilter : Type :=
  { name : option string; minEmployees : option Z; maxEmployees : option Z }.

Record JobFilter : Type :=
  { title : option string; minSalary : option Z; hasEquity : option bool }.

(** [a > b] on two optional numbers: a comparison with [undefined] is
    false. *)
Definition js_gt (a b : option Z) : bool :=
  match a, b with
  | Some x, Some y => y <? x
  | _, _ => false
  end.

(** The two arrays a search builder grows: the predicates of the WHERE
    clause and the positional values. *)
Definition Clauses : Type := list string * list Value.

(** [queryValues.push(v); whereQuery.push(`${lhs}$${queryValues.length}`)]. *)
Definition push_param (lhs : string) (v : Value) (acc : Clauses) : Clauses :=
  let queryValues := acc.2 ++ [v] in
  (acc.1 ++ [lhs +:+ "$" +:+ pretty (length queryValues)], queryValues).

(** [whereQuery.push(pred)] alone. *)
Definition push_pred (pred : string) (acc : Clauses) : Clauses :=
  (acc.1 ++ [pred], acc.2).

(** The end of both [findAll]: the WHERE clause goes between the two parts
    only when there is a predicate. *)
Definition assemble (mainQuery endQuery : string) (whereQuery : list string)
  : string :=
  if (0 <? length whereQuery)%nat
  then mainQuery +:+ " WHERE " +:+ join " AND " whereQuery +:+ endQuery
  else mainQuery +:+ endQuery.

(** ** [models/company.js] *)

Module Company.

Definition duplicateCheckSql : string :=
  "SELECT handle" +:+ nl +:+
  "           FROM companies" +:+ nl +:+
  "           WHERE handle = $1".

Definition insertSql : string :=
  "INSERT INTO companies" +:+ nl +:+
  "           (handle, name, description, num_employees, logo_url)" +:+ nl +:+
  "           VALUES ($1, $2, $3, $4, $5)" +:+ nl +:+
  "           RETURNING handle, name, description, num_employees AS " +:+ dq +:+ "numEmployees" +:+ dq +:+ ", logo_url AS " +:+ dq +:+ "logoUrl" +:+ dq.

Definition create (data : Obj) : Prog Value :=
  let handle := prop data "handle" in
  let name := prop data "name" in
  let description := prop data "description" in
  let numEmployees := prop data "numEmployees" in
  let logoUrl := prop data "logoUrl" in
  duplicateCheck ← query duplicateCheckSql [handle];
  if truthy (first_row duplicateCheck)
  then Throw (BadRequestError ("Duplicate company: " +:+ to_string handle))
  else
    result ← query insertSql [handle; name; description; numEmployees; logoUrl];
    let company := first_row result in
    Ret company.

Definition mainQuery : string :=
  "SELECT handle," +:+ nl +:+
  "                            name," +:+ nl +:+
  "                            description," +:+ nl +:+
  "                            num_employees AS " +:+ dq +:+ "numEmployees" +:+ dq +:+ "," +:+ nl +:+
  "                            logo_url AS " +:+ dq +:+ "logoUrl" +:+ dq +:+ nl +:+
  "                      FROM companies".

Definition endQuery : string := " ORDER BY name".

(** The predicates and values [findAll] collects, in the order of its three
    [if]s. *)
Definition clauses (parameters : CompanyFilter) : Clauses :=
  let acc : Clauses := ([], []) in
  let acc :=
    match minEmployees parameters with
    | Some n => push_param "num_employees >= " (VNum n) acc
    | None => acc
    end in
  let acc :=
    match maxEmployees parameters with
    | Some n => push_param "num_employees <= " (VNum n) acc
    | None => acc
    end in
  let acc :=
    match name parameters with
    | Some s =>
        if truthy (VStr s)
        then push_param "name ILIKE " (VStr ("%" +:+ s +:+ "%")) acc
        else acc
    | None => acc
    end in
  acc.

Definition findAll (parameters : CompanyFilter) : Prog (list Obj) :=
  if js_gt (minEmployees parameters) (maxEmployees parameters)
  then Throw (BadRequestError "Minimum employees cannot exceed maximum employees")
  else
    let '(whereQuery, queryValues) := clauses parameters in
    let sqlQuery := assemble mainQuery endQuery whereQuery in
    companiesRes ← query sqlQuery queryValues;
    Ret companiesRes.

Definition selectSql : string :=
  "SELECT handle," +:+ nl +:+
  "                  name," +:+ nl +:+
  "                  description," +:+ nl +:+
  "                  num_employees AS " +:+ dq +:+ "numEmployees" +:+ dq +:+ "," +:+ nl +:+
  "                  logo_url AS " +:+ dq +:+ "logoUrl" +:+ dq +:+ nl +:+
  "           FROM companies" +:+ nl +:+
  "           WHERE handle = $1".

Definition get (handle : string) : Prog Value :=
  companyRes ← query selectSql [VStr handle];
  let company := first_row companyRes in
  if negb (truthy company)
  then Throw (NotFoundError ("No company: " +:+ handle))
  else Ret company.

(** The translation map [update] hands to the builder. *)
Definition jsToSql : gmap string string :=
  {[ "numEmployees" := "num_employees"; "logoUrl" := "logo_url" ]}.

Definition updateSql (setCols handleVarIdx : string) : string :=
  "UPDATE companies " +:+ nl +:+
  "                      SET " +:+ setCols +:+ " " +:+ nl +:+
  "                      WHERE handle = " +:+ handleVarIdx +:+ " " +:+ nl +:+
  "                      RETURNING handle, " +:+ nl +:+
  "                                name, " +:+ nl +:+
  "                                description, " +:+ nl +:+
  "                                num_employees AS " +:+ dq +:+ "numEmployees" +:+ dq +:+ ", " +:+ nl +:+
  "                                logo_url AS " +:+ dq +:+ "logoUrl" +:+ dq.

Definition update (handle : string) (data : Obj) : Prog Value :=
  u ← call (Sql.sqlForPartialUpdate data jsToSql);
  let handleVarIdx := "$" +:+ pretty (length (Sql.values u) + 1)%nat in
  let querySql := updateSql (Sql.setCols u) handleVarIdx in
  result ← query querySql (Sql.values u ++ [VStr handle]);
  let company := first_row result in
  if negb (truthy company)
  then Throw (NotFoundError ("No company: " +:+ handle))
  else Ret company.

Definition deleteSql : string :=
  "DELETE" +:+ nl +:+
  "           FROM companies" +:+ nl +:+
  "           WHERE handle = $1" +:+ nl +:+
  "           RETURNING handle".

Definition remove (handle : string) : Prog Value :=
  result ← query deleteSql [VStr handle];
  let company := first_row result in
  if negb (truthy company)
  then Throw (NotFoundError ("No company: " +:+ handle))
  else Ret VUndefined.

End Company.

(** ** [models/job.js] *)

Module Job.

Definition insertSql : string :=
  "INSERT INTO jobs (title, salary, equity, company_handle)" +:+ nl +:+
  "            VALUES ($1, $2, $3, $4)" +:+ nl +:+
  "            RETURNING id, title, salary, equity, company_handle AS companyHandle".

Definition create (data : Obj) : Prog Value :=
  let title := prop data "title" in
  let salary := prop data "salary" in
  let equity := prop data "equity" in
  let companyHandle := prop data "companyHandle" in
  result ← query insertSql [title; salary; equity; companyHandle];
  let job := first_row result in
  Ret job.

Definition mainQuery : string :=
  "SELECT j.id, " +:+ nl +:+
  "                                j.title, " +:+ nl +:+
  "                                j.salary, " +:+ nl +:+
  "                                j.equity, " +:+ nl +:+
  "                                j.company_handle AS " +:+ dq +:+ "companyHandle" +:+ dq +:+ ", " +:+ nl +:+
  "                                c.name" +:+ nl +:+
  "                         FROM jobs AS j" +:+ nl +:+
  "                         JOIN companies AS c ON j.company_handle = c.handle".

Definition endQuery : string := " ORDER BY title".

(** The predicates and values [findAll] collects, in the order of its three
    [if]s. *)
Definition clauses (parameters : JobFilter) : Clauses :=
  let acc : Clauses := ([], []) in
  let acc :=
    match hasEquity parameters with
    | Some true => push_pred "equity > 0" acc
    | _ => acc
    end in
  let acc :=
    match title parameters with
    | Some s => push_param "title ILIKE " (VStr ("%" +:+ s +:+ "%")) acc
    | None => acc
    end in
  let acc :=
    match minSalary parameters with
    | Some n => push_param "salary >= " (VNum n) acc
    | None => acc
    end in
  acc.

Definition findAll (parameters : JobFilter) : Prog (list Obj) :=
  let '(whereQuery, queryValues) := clauses parameters in
  let sqlQuery := assemble mainQuery endQuery whereQuery in
  jobsRes ← query sqlQuery queryValues;
  Ret jobsRes.

Definition selectSql : string :=
  "SELECT id, title, salary, equity, company_handle AS " +:+ dq +:+ "companyHandle" +:+ dq +:+ " FROM jobs WHERE id=$1".

Definition companySql : string :=
  "SELECT handle," +:+ nl +:+
  "                  name," +:+ nl +:+
  "                  description," +:+ nl +:+
  "                  num_employees AS " +:+ dq +:+ "numEmployees" +:+ dq +:+ "," +:+ nl +:+
  "                  logo_url AS " +:+ dq +:+ "logoUrl" +:+ dq +:+ nl +:+
  "           FROM companies" +:+ nl +:+
  "           WHERE handle = $1".

(** [delete job.companyHandle; job.companyHandle = company]. *)
Definition nest_company (job company : Value) : Value :=
  match job with
  | VObj o => VObj (set_prop (delete_prop o "companyHandle") "companyHandle" company)
  | _ => job
  end.

Definition get (id : Z) : Prog Value :=
  jobRes ← query selectSql [VNum id];
  let job := first_row jobRes in
  if negb (truthy job)
  then Throw (NotFoundError ("That job does not exist: job id " +:+ pretty id))
  else
    companyRes ← query companySql [Js.get job "companyHandle"];
    Ret (nest_company job (first_row companyRes)).

Definition updateSql (setCols idIdx : string) : string :=
  "UPDATE jobs SET " +:+ setCols +:+ " WHERE id=" +:+ idIdx +:+ " RETURNING id, title, salary, equity, company_handle AS " +:+ dq +:+ "companyHandle" +:+ dq.

Definition update (id : Z) (data : Obj) : Prog Value :=
  u ← call (Sql.sqlForPartialUpdate data ∅);
  let idIdx := "$" +:+ pretty (length (Sql.values u) + 1)%nat in
  let query_text := updateSql (Sql.setCols u) idIdx in
  results ← query query_text (Sql.values u ++ [VNum id]);
  let job := first_row results in
  if negb (truthy job)
  then Throw (NotFoundError ("That job does not exist: job id " +:+ pretty id))
  else Ret job.

Definition deleteSql : string :=
  "DELETE" +:+ nl +:+
  "            FROM jobs" +:+ nl +:+
  "            WHERE id = $1" +:+ nl +:+
  "            RETURNING id".

Definition remove (id : Z) : Prog Value :=
  result ← query deleteSql [VNum id];
  let job := first_row result in
  if negb (truthy job)
  then Throw (NotFoundError ("That job does not exist: job id " +:+ pretty id))
  else Ret VUndefined.

End Job.

(** ** A reference store *)

(** The models reach the database only through [db.query]; neither [db.js]
    nor the schema is among the sources.  [Store] is a store for exactly the
    statements the two models issue: it recognises their texts, binds the
    positional parameters and acts on two tables.

    Scope of the model: a text column takes a string (a number or boolean
    arrives as its text, as the driver sends it) or NULL, an integer column a
    number or NULL; [undefined] is sent as NULL.  The equity of a job is a
    numeric column: it takes a plain decimal text (digits with at most one
    point, no sign, no exponent) and returns it in the form a numeric has,
    with a digit before the point and no spare leading zero; any other text
    is answered with a failure.  The key columns ([handle], [id],
    [company_handle]) cannot be the target of SET.  NOT NULL and CHECK
    constraints of the real schema are not modelled; the primary keys, the
    sequence of job ids and the foreign key from a job to its company are. *)

Module Store.

Record CompanyRow : Type :=
  { c_handle : string;
    c_name : Value;
    c_description : Value;
    c_num_employees : Value;
    c_logo_url : Value }.

Record JobRow : Type :=
  { j_id : Z;
    j_title : Value;
    j_salary : Value;
    j_equity : Value;
    j_company_handle : string }.

Record State : Type :=
  { companies : list CompanyRow; jobs : list JobRow; next_id : Z }.

Definition empty : State := {| companies := []; jobs := []; next_id := 1 |}.

(** *** Rows as the driver returns them *)

(** [handle, name, description, num_employees AS "numEmployees",
    logo_url AS "logoUrl"]. *)
Definition company_obj (c : CompanyRow) : Obj :=
  [ ("handle", VStr (c_handle c)); ("name", c_name c);
    ("description", c_description c); ("numEmployees", c_num_employees c);
    ("logoUrl", c_logo_url c) ].

(** [id, title, salary, equity, company_handle AS <alias>]. *)
Definition job_obj (alias : string) (j : JobRow) : Obj :=
  [ ("id", VNum (j_id j)); ("title", j_title j); ("salary", j_salary j);
    ("equity", j_equity j); (alias, VStr (j_company_handle j)) ].

(** *** Parameters *)

(** A parameter as text: what a text column stores and what a text key is
    compared with.  [None] is NULL. *)
Definition sql_text (v : Value) : option string :=
  match v with
  | VStr s => Some s
  | VNum n => Some (pretty n)
  | VBool b => Some (to_string (VBool b))
  | VUndefined | VNull | VObj _ => None
  end.

(** The text a numeric column gives back for a plain decimal text: the
    digits before the point without leading zeros, [0] when there are none,
    and the digits after the point as written.  [None] for any other
    text. *)
Definition is_digit (c : ascii) : bool :=
  let n := nat_of_ascii c in ((48 <=? n) && (n <=? 57))%nat.

Fixpoint all_digits (s : string) : bool :=
  match s with
  | EmptyString => true
  | String c s' => is_digit c && all_digits s'
  end.

Fixpoint split_point (s : string) : string * option string :=
  match s with
  | EmptyString => (EmptyString, None)
  | String c s' =>
      if Ascii.eqb c "."%char then (EmptyString, Some s')
      else let '(a, b) := split_point s' in (String c a, b)
  end.

Fixpoint strip_zeros (s : string) : string :=
  match s with
  | String c s' => if Ascii.eqb c "0"%char then strip_zeros s' else s
  | EmptyString => EmptyString
  end.

Definition numeric_text (s : string) : option string :=
  let '(whole, rest) := split_point s in
  let fraction := default EmptyString rest in
  if all_digits whole && all_digits fraction
     && negb (String.eqb whole EmptyString && String.eqb fraction EmptyString)
  then
    let whole' := strip_zeros whole in
    Some ((if String.eqb whole' EmptyString then "0" else whole')
          +:+ (if String.eqb fraction EmptyString then EmptyString
               else "." +:+ fraction))
  else None.

Inductive ColType : Type := TText | TInt | TNumeric.

(** The value a column of type [t] stores for parameter [v]; [None] when the
    store rejects it. *)
Definition store_value (t : ColType) (v : Value) : option Value :=
  match t, v with
  | _, (VUndefined | VNull) => Some VNull
  | TText, (VStr _ | VNum _ | VBool _) => VStr <$> sql_text v
  | TInt, VNum n => Some (VNum n)
  | TNumeric, (VStr _ | VNum _) => VStr <$> (sql_text v ≫= numeric_text)
  | _, _ => None
  end.

(** An unquoted identifier is folded to lower case. *)
Definition lower (c : ascii) : ascii :=
  let n := nat_of_ascii c in
  if ((65 <=? n) && (n <=? 90))%nat then ascii_of_nat (n + 32) else c.

(** *** Recognising the statements *)

Fixpoint strip_prefix (p s : string) : option string :=
  match p with
  | EmptyString => Some s
  | String a p' =>
      match s with
      | String b s' => if Ascii.eqb a b then strip_prefix p' s' else None
      | EmptyString => None
      end
  end.

(** The text up to the next double quote, and what follows the quote. *)
Fixpoint until_dq (s : string) : option (string * string) :=
  match s with
  | EmptyString => None
  | String c s' =>
      if Ascii.eqb c "034"%char then Some (EmptyString, s')
      else '(a, r) ← until_dq s'; Some (String c a, r)
  end.

(** The name of an output column after [AS]: a quoted name as written, an
    unquoted one folded to lower case; and the text after the name. *)
Definition is_ident_char (c : ascii) : bool :=
  let n := nat_of_ascii c in
  (((48 <=? n) && (n <=? 57)) || ((65 <=? n) && (n <=? 90))
   || ((97 <=? n) && (n <=? 122)) || (n =? 95))%nat.

Fixpoint take_ident (s : string) : string * string :=
  match s with
  | EmptyString => (EmptyString, EmptyString)
  | String c s' =>
      if is_ident_char c
      then let '(a, r) := take_ident s' in (String (lower c) a, r)
      else (EmptyString, s)
  end.

Definition parse_output_name (s : string) : option (string * string) :=
  match strip_prefix dq s with
  | Some r => until_dq r
  | None =>
      let '(a, r) := take_ident s in
      if String.eqb a EmptyString then None else Some (a, r)
  end.

(** One assignment ["col"=$idx]: the column name, and the text after the
    assignment. *)
Definition parse_assignment (idx : nat) (s : string) : option (string * string) :=
  s ← strip_prefix dq s;
  '(col, s) ← until_dq s;
  s ← strip_prefix ("=$" +:+ pretty idx) s;
  Some (col, s).

(** A SET list ["c1"=$i, "c2"=$(i+1), ...] of at most [fuel] assignments:
    the column names, and the text after the list.  The placeholders must be
    numbered consecutively from [idx]. *)
Fixpoint parse_set (fuel : nat) (idx : nat) (s : string)
  : option (list string * string) :=
  match fuel with
  | O => None
  | S fuel' =>
      '(col, s) ← parse_assignment idx s;
      match strip_prefix ", " s with
      | None => Some ([col], s)
      | Some s' =>
          '(cols, r) ← parse_set fuel' (S idx) s'; Some (col :: cols, r)
      end
  end.

(** The predicates of the two listings. *)
Inductive Pred : Type :=
  | MinEmployees | MaxEmployees | NameLike
  | HasEquity | TitleLike | MinSalary.

(** A predicate the WHERE clause of a listing may hold: its text up to the
    placeholder, whether it has a placeholder, and what it is. *)
Definition PredTable : Type := list (string * bool * Pred).

Definition company_preds : PredTable :=
  [ ("num_employees >= ", true, MinEmployees);
    ("num_employees <= ", true, MaxEmployees);
    ("name ILIKE ", true, NameLike) ].

Definition job_preds : PredTable :=
  [ ("equity > 0", false, HasEquity);
    ("title ILIKE ", true, TitleLike);
    ("salary >= ", true, MinSalary) ].

(** One predicate at the head of [s]; a placeholder must carry number [idx].
    Gives the predicate, the number the next placeholder must carry and the
    text after the predicate. *)
Fixpoint parse_pred (table : PredTable) (idx : nat) (s : string)
  : option (Pred * nat * string) :=
  match table with
  | [] => None
  | (lhs, placeholder, p) :: table' =>
      let t := if placeholder then lhs +:+ "$" +:+ pretty idx else lhs in
      match strip_prefix t s with
      | Some r => Some (p, if placeholder then S idx else idx, r)
      | None => parse_pred table' idx s
      end
  end.

(** At most [fuel] predicates joined by [ AND ], and the text after them. *)
Fixpoint parse_where (fuel : nat) (table : PredTable) (idx : nat) (s : string)
  : option (list Pred * string) :=
  match fuel with
  | O => None
  | S fuel' =>
      '(p, idx', s) ← parse_pred table idx s;
      match strip_prefix " AND " s with
      | None => Some ([p], s)
      | Some s' =>
          '(ps, r) ← parse_where fuel' table idx' s'; Some (p :: ps, r)
      end
  end.

(** A listing: [mainQuery], an optional WHERE clause, [endQuery]. *)
Definition parse_listing (mainQuery endQuery : string) (table : PredTable)
    (s : string) : option (list Pred) :=
  s ← strip_prefix mainQuery s;
  if String.eqb s endQuery then Some []
  else
    s ← strip_prefix " WHERE " s;
    '(ps, r) ← parse_where (String.length s) table 1 s;
    if String.eqb r endQuery then Some ps else None.

(** An UPDATE: [head], the SET list, then [tail] applied to the placeholder
    of the key, which follows those of the SET list. *)
Definition parse_update (head : string) (tail : string → string) (s : string)
  : option (list string) :=
  s ← strip_prefix head s;
  '(cols, r) ← parse_set (String.length s) 1 s;
  if String.eqb r (tail ("$" +:+ pretty (S (length cols)))) then Some cols
  else None.

Inductive Stmt : Type :=
  | CompanyExists
  | CompanyInsert
  | CompanySelect
  | CompanyUpdate (cols : list string)
  | CompanyDelete
  | CompanyList (preds : list Pred)
  | JobInsert (alias : string)
  | JobSelect (alias : string)
  | JobUpdate (cols : list string)
  | JobDelete
  | JobList (preds : list Pred).

Definition company_update_head : string :=
  Eval vm_compute in
  "UPDATE companies " +:+ nl +:+ "                      SET ".

Definition company_update_tail (handleVarIdx : string) : string :=
  " " +:+ nl +:+
  "                      WHERE handle = " +:+ handleVarIdx +:+ " " +:+ nl +:+
  "                      RETURNING handle, " +:+ nl +:+
  "                                name, " +:+ nl +:+
  "                                description, " +:+ nl +:+
  "                                num_employees AS " +:+ dq +:+ "numEmployees" +:+ dq +:+ ", " +:+ nl +:+
  "                                logo_url AS " +:+ dq +:+ "logoUrl" +:+ dq.

Definition job_update_head : string := "UPDATE jobs SET ".

Definition job_update_tail (idIdx : string) : string :=
  " WHERE id=" +:+ idIdx +:+ " RETURNING id, title, salary, equity, company_handle AS " +:+ dq +:+ "companyHandle" +:+ dq.

(** The INSERT and the SELECT of one job, up to the name their last output
    column is given. *)
Definition job_insert_head : string :=
  "INSERT INTO jobs (title, salary, equity, company_handle)" +:+ nl +:+
  "            VALUES ($1, $2, $3, $4)" +:+ nl +:+
  "            RETURNING id, title, salary, equity, company_handle AS ".

Definition job_select_head : string :=
  "SELECT id, title, salary, equity, company_handle AS ".

Definition job_select_tail : string := " FROM jobs WHERE id=$1".

Definition decode (s : string) : option Stmt :=
  if String.eqb s Company.duplicateCheckSql then Some CompanyExists
  else if String.eqb s Company.insertSql then Some CompanyInsert
  else if String.eqb s Company.selectSql then Some CompanySelect
  else if String.eqb s Company.deleteSql then Some CompanyDelete
  else if String.eqb s Job.deleteSql then Some JobDelete
  else
    match parse_update company_update_head company_update_tail s with
    | Some cols => Some (CompanyUpdate cols)
    | None =>
    match parse_update job_update_head job_update_tail s with
    | Some cols => Some (JobUpdate cols)
    | None =>
    match parse_listing Company.mainQuery Company.endQuery company_preds s with
    | Some ps => Some (CompanyList ps)
    | None =>
    match parse_listing Job.mainQuery Job.endQuery job_preds s with
    | Some ps => Some (JobList ps)
    | None =>
    match strip_prefix job_insert_head s with
    | Some r =>
        '(alias, r) ← parse_output_name r;
        if String.eqb r EmptyString then Some (JobInsert alias) else None
    | None =>
    match strip_prefix job_select_head s with
    | Some r =>
        '(alias, r) ← parse_output_name r;
        if String.eqb r job_select_tail then Some (JobSelect alias) else None
    | None => None
    end end end end end end.

(** *** Lookups by key *)

Definition find_company (h : string) (st : State) : option CompanyRow :=
  List.find (λ c, String.eqb (c_handle c) h) (companies st).

Definition find_job (i : Z) (st : State) : option JobRow :=
  List.find (λ j, j_id j =? i) (jobs st).

(** An integer key parameter: [Some None] is NULL, [None] is rejected. *)
Definition int_param (v : Value) : option (option Z) :=
  match v with
  | VNum n => Some (Some n)
  | VUndefined | VNull => Some None
  | _ => None
  end.

(** *** SET lists *)

Definition company_setter (col : string) (v : Value)
  : option (CompanyRow → CompanyRow) :=
  if String.eqb col "name" then
    v' ← store_value TText v;
    Some (λ c, {| c_handle := c_handle c; c_name := v';
                  c_description := c_description c;
                  c_num_employees := c_num_employees c;
                  c_logo_url := c_logo_url c |})
  else if String.eqb col "description" then
    v' ← store_value TText v;
    Some (λ c, {| c_handle := c_handle c; c_name := c_name c;
                  c_description := v';
                  c_num_employees := c_num_employees c;
                  c_logo_url := c_logo_url c |})
  else if String.eqb col "num_employees" then
    v' ← store_value TInt v;
    Some (λ c, {| c_handle := c_handle c; c_name := c_name c;
                  c_description := c_description c;
                  c_num_employees := v';
                  c_logo_url := c_logo_url c |})
  else if String.eqb col "logo_url" then
    v' ← store_value TText v;
    Some (λ c, {| c_handle := c_handle c; c_name := c_name c;
                  c_description := c_description c;
                  c_num_employees := c_num_employees c;
                  c_logo_url := v' |})
  else None.

Definition job_setter (col : string) (v : Value) : option (JobRow → JobRow) :=
  if String.eqb col "title" then
    v' ← store_value TText v;
    Some (λ j, {| j_id := j_id j; j_title := v'; j_salary := j_salary j;
                  j_equity := j_equity j;
                  j_company_handle := j_company_handle j |})
  else if String.eqb col "salary" then
    v' ← store_value TInt v;
    Some (λ j, {| j_id := j_id j; j_title := j_title j; j_salary := v';
                  j_equity := j_equity j;
                  j_company_handle := j_company_handle j |})
  else if String.eqb col "equity" then
    v' ← store_value TNumeric v;
    Some (λ j, {| j_id := j_id j; j_title := j_title j; j_salary := j_salary j;
                  j_equity := v';
                  j_company_handle := j_company_handle j |})
  else None.

(** The row transformer of a whole SET list: column [i] takes parameter [i].
    [None] when a column is unknown or a value is rejected. *)
Fixpoint setters {R} (setter : string → Value → option (R → R))
    (cols : list string) (params : list Value) : option (R → R) :=
  match cols, params with
  | [], _ => Some (λ r, r)
  | col :: cols', v :: params' =>
      f ← setter col v;
      g ← setters setter cols' params';
      Some (λ r, g (f r))
  | _ :: _, [] => None
  end.

(** *** Listings *)

(** [s ILIKE p]: [%] stands for any run of characters, [_] for any one
    character, a backslash takes the next character literally; letters match
    without regard to case. *)
Fixpoint ilike (p : string) : string → bool :=
  match p with
  | EmptyString =>
      λ s, match s with EmptyString => true | String _ _ => false end
  | String c p' =>
      if Ascii.eqb c "%"%char then
        fix any (s : string) : bool :=
          ilike p' s
          || match s with String _ s' => any s' | EmptyString => false end
      else if Ascii.eqb c "_"%char then
        λ s, match s with String _ s' => ilike p' s' | EmptyString => false end
      else if Ascii.eqb c "\"%char then
        match p' with
        | String e p'' =>
            λ s, match s with
                 | String d s' => Ascii.eqb (lower e) (lower d) && ilike p'' s'
                 | EmptyString => false
                 end
        | EmptyString => λ _, false
        end
      else
        λ s, match s with
             | String d s' => Ascii.eqb (lower c) (lower d) && ilike p' s'
             | EmptyString => false
             end
  end.

(** [equity > 0] on the text of a numeric: some digit is not zero. *)
Fixpoint has_nonzero_digit (s : string) : bool :=
  match s with
  | EmptyString => false
  | String c s' =>
      let n := nat_of_ascii c in
      ((49 <=? n) && (n <=? 57))%nat || has_nonzero_digit s'
  end.

Definition positive_decimal (v : Value) : bool :=
  match v with
  | VStr s =>
      match numeric_text s with
      | Some _ => has_nonzero_digit s
      | None => false
      end
  | _ => false
  end.

(** A job row joined with its company row. *)
Definition Joined : Type := JobRow * CompanyRow.

(** The truth of one predicate on a row, given its parameter; a comparison
    with NULL is not true. *)
Definition int_ge (column bound : Value) : bool :=
  match column, bound with
  | VNum x, VNum n => n <=? x
  | _, _ => false
  end.

Definition int_le (column bound : Value) : bool :=
  match column, bound with
  | VNum x, VNum n => x <=? n
  | _, _ => false
  end.

Definition text_ilike (column pattern : Value) : bool :=
  match column, sql_text pattern with
  | VStr s, Some p => ilike p s
  | _, _ => false
  end.

(** The filter a predicate list stands for; each predicate with a
    placeholder takes the next parameter.  [None] when a parameter is
    missing or rejected, or a predicate is not one of the table. *)
Fixpoint company_filter (ps : list Pred) (params : list Value)
  : option (CompanyRow → bool) :=
  match ps, params with
  | [], [] => Some (λ _, true)
  | MinEmployees :: ps', v :: params' =>
      _ ← store_value TInt v;
      f ← company_filter ps' params';
      Some (λ c, int_ge (c_num_employees c) v && f c)
  | MaxEmployees :: ps', v :: params' =>
      _ ← store_value TInt v;
      f ← company_filter ps' params';
      Some (λ c, int_le (c_num_employees c) v && f c)
  | NameLike :: ps', v :: params' =>
      f ← company_filter ps' params';
      Some (λ c, text_ilike (c_name c) v && f c)
  | _, _ => None
  end.

Fixpoint job_filter (ps : list Pred) (params : list Value)
  : option (Joined → bool) :=
  match ps, params with
  | [], [] => Some (λ _, true)
  | HasEquity :: ps', _ =>
      f ← job_filter ps' params;
      Some (λ r, positive_decimal (j_equity r.1) && f r)
  | TitleLike :: ps', v :: params' =>
      f ← job_filter ps' params';
      Some (λ r, text_ilike (j_title r.1) v && f r)
  | MinSalary :: ps', v :: params' =>
      _ ← store_value TInt v;
      f ← job_filter ps' params';
      Some (λ r, int_ge (j_salary r.1) v && f r)
  | _, _ => None
  end.

(** ORDER BY on a text column: ascending by character code, NULLs last,
    rows with equal keys in table order. *)
Definition text_le (a b : Value) : bool :=
  match a, b with
  | VStr x, VStr y => String.leb x y
  | VStr _, _ => true
  | _, VStr _ => false
  | _, _ => true
  end.

Fixpoint insert_by {A} (key : A → Value) (x : A) (l : list A) : list A :=
  match l with
  | [] => [x]
  | y :: l' =>
      if text_le (key x) (key y) then x :: l else y :: insert_by key x l'
  end.

Definition order_by {A} (key : A → Value) (l : list A) : list A :=
  foldr (insert_by key) [] l.

(** [jobs AS j JOIN companies AS c ON j.company_handle = c.handle]. *)
Definition joined (st : State) : list Joined :=
  omap (λ j, c ← find_company (j_company_handle j) st; Some (j, c)) (jobs st).

(** [j.id, ..., j.company_handle AS "companyHandle", c.name]. *)
Definition joined_obj (r : Joined) : Obj :=
  job_obj "companyHandle" r.1 ++ [("name", c_name r.2)].

(** *** Running a statement *)

Definition Reply : Type := (Exn + list Obj) * State.

Definition failure (message : string) (st : State) : Reply :=
  (inl (DbError message), st).

Definition bad_params : string := "parameters do not fit the statement".

Definition run_company_insert (params : list Value) (st : State) : Reply :=
  match params with
  | [handle; name; description; numEmployees; logoUrl] =>
      match sql_text handle, store_value TText name,
            store_value TText description, store_value TInt numEmployees,
            store_value TText logoUrl with
      | Some h, Some n, Some d, Some e, Some l =>
          match find_company h st with
          | Some _ => failure "duplicate key value" st
          | None =>
              let c := {| c_handle := h; c_name := n; c_description := d;
                          c_num_employees := e; c_logo_url := l |} in
              (inr [company_obj c],
               {| companies := companies st ++ [c]; jobs := jobs st;
                  next_id := next_id st |})
          end
      | _, _, _, _, _ => failure bad_params st
      end
  | _ => failure bad_params st
  end.

Definition run_company_update (cols : list string) (params : list Value)
    (st : State) : Reply :=
  if negb (length params =? S (length cols))%nat then failure bad_params st
  else if negb (bool_decide (NoDup cols)) then
    failure "multiple assignments to same column" st
  else
    match setters company_setter cols params with
    | None => failure "column or value rejected" st
    | Some f =>
        match sql_text (default VNull (last params)) with
        | None => (inr [], st)
        | Some h =>
            match find_company h st with
            | None => (inr [], st)
            | Some c =>
                (inr [company_obj (f c)],
                 {| companies :=
                      map (λ c, if String.eqb (c_handle c) h then f c else c)
                          (companies st);
                    jobs := jobs st; next_id := next_id st |})
            end
        end
    end.

Definition run_company_delete (params : list Value) (st : State) : Reply :=
  match params with
  | [handle] =>
      match h ← sql_text handle; c ← find_company h st; Some (c_handle c) with
      | None => (inr [], st)
      | Some h =>
          (inr [[("handle", VStr h)]],
           {| companies :=
                filter (λ c, c_handle c ≠ h) (companies st);
              jobs := filter (λ j, j_company_handle j ≠ h) (jobs st);
              next_id := next_id st |})
      end
  | _ => failure bad_params st
  end.

Definition run_company_list (ps : list Pred) (params : list Value)
    (st : State) : Reply :=
  match company_filter ps params with
  | None => failure bad_params st
  | Some f =>
      (inr (company_obj <$> order_by c_name (List.filter f (companies st))),
       st)
  end.

(** The id comes from the sequence; a value the sequence has given is not
    given again, also when the row is then refused for its company. *)
Definition run_job_insert (alias : string) (params : list Value) (st : State)
  : Reply :=
  match params with
  | [title; salary; equity; companyHandle] =>
      match store_value TText title, store_value TInt salary,
            store_value TNumeric equity, sql_text companyHandle with
      | Some t, Some s, Some e, Some h =>
          match find_company h st with
          | None =>
              failure "foreign key violation"
                {| companies := companies st; jobs := jobs st;
                   next_id := next_id st + 1 |}
          | Some _ =>
              let j := {| j_id := next_id st; j_title := t; j_salary := s;
                          j_equity := e; j_company_handle := h |} in
              (inr [job_obj alias j],
               {| companies := companies st; jobs := jobs st ++ [j];
                  next_id := next_id st + 1 |})
          end
      | _, _, _, _ => failure bad_params st
      end
  | _ => failure bad_params st
  end.

Definition run_job_update (cols : list string) (params : list Value)
    (st : State) : Reply :=
  if negb (length params =? S (length cols))%nat then failure bad_params st
  else if negb (bool_decide (NoDup cols)) then
    failure "multiple assignments to same column" st
  else
    match setters job_setter cols params,
          int_param (default VNull (last params)) with
    | Some f, Some key =>
        match i ← key; find_job i st with
        | None => (inr [], st)
        | Some j =>
            (inr [job_obj "companyHandle" (f j)],
             {| companies := companies st;
                jobs := map (λ j', if j_id j' =? j_id j then f j' else j')
                            (jobs st);
                next_id := next_id st |})
        end
    | _, _ => failure "column or value rejected" st
    end.

Definition run_job_delete (params : list Value) (st : State) : Reply :=
  match params with
  | [id] =>
      match int_param id with
      | None => failure bad_params st
      | Some key =>
          match i ← key; find_job i st with
          | None => (inr [], st)
          | Some j =>
              (inr [[("id", VNum (j_id j))]],
               {| companies := companies st;
                  jobs := filter (λ j', j_id j' ≠ j_id j) (jobs st);
                  next_id := next_id st |})
          end
      end
  | _ => failure bad_params st
  end.

Definition run_job_list (ps : list Pred) (params : list Value) (st : State)
  : Reply :=
  match job_filter ps params with
  | None => failure bad_params st
  | Some f =>
      (inr (joined_obj <$>
              order_by (λ r : Joined, j_title r.1) (List.filter f (joined st))),
       st)
  end.

Definition run (s : Stmt) (params : list Value) (st : State) : Reply :=
  match s with
  | CompanyExists =>
      match params with
      | [handle] =>
          match h ← sql_text handle; find_company h st with
          | Some c => (inr [[("handle", VStr (c_handle c))]], st)
          | None => (inr [], st)
          end
      | _ => failure bad_params st
      end
  | CompanyInsert => run_company_insert params st
  | CompanySelect =>
      match params with
      | [handle] =>
          match h ← sql_text handle; find_company h st with
          | Some c => (inr [company_obj c], st)
          | None => (inr [], st)
          end
      | _ => failure bad_params st
      end
  | CompanyUpdate cols => run_company_update cols params st
  | CompanyDelete => run_company_delete params st
  | CompanyList ps => run_company_list ps params st
  | JobInsert alias => run_job_insert alias params st
  | JobSelect alias =>
      match params with
      | [id] =>
          match int_param id with
          | None => failure bad_params st
          | Some key =>
              match i ← key; find_job i st with
              | Some j => (inr [job_obj alias j], st)
              | None => (inr [], st)
              end
          end
      | _ => failure bad_params st
      end
  | JobUpdate cols => run_job_update cols params st
  | JobDelete => run_job_delete params st
  | JobList ps => run_job_list ps params st
  end.

(** [db.query] against the reference store. *)
Definition db : Handler State :=
  λ text params st,
    match decode text with
    | Some s => run s params st
    | None => failure "syntax error" st
    end.

End Store.

(** ** The search clauses as the specification words them *)

(** A predicate of a search as the specification lists it: one that carries
    no value, or one whose value is bound to a positional placeholder. *)
Inductive SpecPred : Type :=
  | Bare (text : string)
  | Bound (lhs : string) (v : Value).

(** The texts of a predicate list; the placeholders of the value-bearing
    predicates are numbered from [idx] in list order. *)
Fixpoint spec_texts (idx : nat) (ps : list SpecPred) : list string :=
  match ps with
  | [] => []
  | Bare t :: ps' => t :: spec_texts idx ps'
  | Bound lhs _ :: ps' => (lhs +:+ "$" +:+ pretty idx) :: spec_texts (S idx) ps'
  end.

(** The positional values, in list order. *)
Fixpoint spec_values (ps : list SpecPred) : list Value :=
  match ps with
  | [] => []
  | Bare _ :: ps' => spec_values ps'
  | Bound _ v :: ps' => v :: spec_values ps'
  end.

(** The listing statement for a predicate list: the projection, the
    predicates joined by AND when there are any, the ordering. *)
Definition spec_listing (mainQuery endQuery : string) (ps : list SpecPred)
  : string :=
  match ps with
  | [] => mainQuery +:+ endQuery
  | _ :: _ =>
      mainQuery +:+ " WHERE " +:+ join " AND " (spec_texts 1 ps) +:+ endQuery
  end.

Definition when {A} (present : option A) (p : A → SpecPred) : list SpecPred :=
  match present with
  | Some a => [p a]
  | None => []
  end.

Definition wildcards (s : string) : Value := VStr ("%" +:+ s +:+ "%").

(** Company search, every present field giving a predicate. *)
Definition spec_company_preds_if_present (f : CompanyFilter) : list SpecPred :=
  when (minEmployees f) (λ n, Bound "num_employees >= " (VNum n))
  ++ when (maxEmployees f) (λ n, Bound "num_employees <= " (VNum n))
  ++ when (name f) (λ s, Bound "name ILIKE " (wildcards s)).

(** The name as the search uses it: an empty name counts as absent. *)
Definition nonempty_name (f : CompanyFilter) : option string :=
  match name f with
  | Some s => if decide (s = EmptyString) then None else Some s
  | None => None
  end.

(** Company search, the name giving a predicate when present and not
    empty. *)
Definition spec_company_preds (f : CompanyFilter) : list SpecPred :=
  when (minEmployees f) (λ n, Bound "num_employees >= " (VNum n))
  ++ when (maxEmployees f) (λ n, Bound "num_employees <= " (VNum n))
  ++ when (nonempty_name f) (λ s, Bound "name ILIKE " (wildcards s)).

(** Job search. *)
Definition spec_job_preds (f : JobFilter) : list SpecPred :=
  (if decide (hasEquity f = Some true) then [Bare "equity > 0"] else [])
  ++ when (title f) (λ s, Bound "title ILIKE " (wildcards s))
  ++ when (minSalary f) (λ n, Bound "salary >= " (VNum n)).

(** A filter the company search accepts. *)
Definition valid_filter (f : CompanyFilter) : Prop :=
  ∀ lo hi, minEmployees f = Some lo → maxEmployees f = Some hi → lo ≤ hi.

(** The statement an operation issues first, if it issues one. *)
Definition first_statement {A} (p : Prog A) : option Statement :=
  match p with
  | Query text params _ => Some {| text := text; params := params |}
  | _ => None
  end.

(** Two filters with the same fields present. *)
Definition same_fields_company (f g : CompanyFilter) : Prop :=
  (is_Some (name f) ↔ is_Some (name g))
  ∧ (is_Some (minEmployees f) ↔ is_Some (minEmployees g))
  ∧ (is_Some (maxEmployees f) ↔ is_Some (maxEmployees g)).

Definition same_fields_job (f g : JobFilter) : Prop :=
  (is_Some (title f) ↔ is_Some (title g))
  ∧ (is_Some (minSalary f) ↔ is_Some (minSalary g))
  ∧ (is_Some (hasEquity f) ↔ is_Some (hasEquity g)).

(** ** Partial data of the data model *)

Definition is_string (v : Value) : bool :=
  match v with VStr _ => true | _ => false end.

Definition is_null (v : Value) : bool :=
  match v with VNull => true | _ => false end.

Definition is_count (v : Value) : bool :=
  match v with VNum n => 0 <=? n | _ => false end.

(** A decimal text in the form a numeric column has: the store gives it
    back as it is. *)
Definition is_decimal (v : Value) : bool :=
  match v with
  | VStr s => bool_decide (Store.numeric_text s = Some s)
  | _ => false
  end.

(** A field a company update may carry: a string for [name] and
    [description], a string or null for [logoUrl], a non-negative integer or
    null for [numEmployees]. *)
Definition company_field (k : string) (v : Value) : bool :=
  (String.eqb k "name" || String.eqb k "description") && is_string v
  || String.eqb k "logoUrl" && (is_string v || is_null v)
  || String.eqb k "numEmployees" && (is_count v || is_null v).

(** A field a job update may carry: a string for [title], a non-negative
    integer or null for [salary], a decimal text or null for [equity]. *)
Definition job_field (k : string) (v : Value) : bool :=
  String.eqb k "title" && is_string v
  || String.eqb k "salary" && (is_count v || is_null v)
  || String.eqb k "equity" && (is_decimal v || is_null v).

(** A partial update of the data model: an object (no key twice) whose
    fields are all permitted. *)
Definition partial_data (field : string → Value → bool) (data : Obj) : Prop :=
  NoDup (keys data) ∧ Forall (λ kv, field kv.1 kv.2 = true) data.

(** ** Statement texts, for the store *)

Fixpoint has_dq (s : string) : bool :=
  match s with
  | EmptyString => false
  | String c s' => Ascii.eqb c "034"%char || has_dq s'
  end.

(** The SET list for columns [cols], with placeholders numbered from
    [S i]. *)
Definition set_list (i : nat) (cols : list string) : string :=
  join ", " (imap (λ k c, dq +:+ c +:+ dq +:+ "=$" +:+ pretty (S (i + k))) cols).

(** The column a key of the update mapping is written to. *)
Definition column (jsToSql : gmap string string) (k : string) : string :=
  Sql.column_name jsToSql k.

(** ** Outcomes on the reference store *)

(** The errors of the not-found paths. *)
Definition not_found_company (h : string) : Exn :=
  NotFoundError ("No company: " +:+ h).

Definition not_found_job (i : Z) : Exn :=
  NotFoundError ("That job does not exist: job id " +:+ pretty i).

(** The operation threw [e] and the store is still [st]. *)
Definition failed_unchanged {A} (st : Store.State) (o : Outcome Store.State A)
    (e : Exn) : Prop :=
  result o = inl e ∧ store o = st.

(** A small store in the manner of the test fixtures and of the examples of
    the specification: two companies, and three jobs of the first with
    equity 0.1, 0.0 and none. *)
Module Fixture.

Definition c1 : Store.CompanyRow :=
  {| Store.c_handle := "c1"; Store.c_name := VStr "C1";
     Store.c_description := VStr "Desc1"; Store.c_num_employees := VNum 1;
     Store.c_logo_url := VStr "http://c1.img" |}.

Definition c2 : Store.CompanyRow :=
  {| Store.c_handle := "c2"; Store.c_name := VStr "Big";
     Store.c_description := VStr "Desc2"; Store.c_num_employees := VNum 50;
     Store.c_logo_url := VNull |}.

Definition j1 : Store.JobRow :=
  {| Store.j_id := 1; Store.j_title := VStr "J1"; Store.j_salary := VNum 1;
     Store.j_equity := VStr "0.1"; Store.j_company_handle := "c1" |}.

Definition j2 : Store.JobRow :=
  {| Store.j_id := 2; Store.j_title := VStr "J2"; Store.j_salary := VNum 2;
     Store.j_equity := VStr "0.0"; Store.j_company_handle := "c1" |}.

Definition j3 : Store.JobRow :=
  {| Store.j_id := 3; Store.j_title := VStr "J3"; Store.j_salary := VNum 3;
     Store.j_equity := VNull; Store.j_company_handle := "c1" |}.

Definition st : Store.State :=
  {| Store.companies := [c1; c2]; Store.jobs := [j1; j2; j3];
     Store.next_id := 4 |}.

(** The company of the round trip. *)
Definition nine : Obj :=
  [("handle", VStr "c9"); ("name", VStr "Nine"); ("numEmployees", VNum 9)].

End Fixture.

(** ** Data for the remaining operations *)

(** A parameter as the driver sends it: [undefined] goes as NULL. *)
Definition nullify (v : Value) : Value :=
  match v with
  | VUndefined => VNull
  | _ => v
  end.

Definition is_undefined (v : Value) : bool :=
  match v with VUndefined => true | _ => false end.

(** A text field that may be left out, and a count that may be left out. *)
Definition optional_text (v : Value) : bool :=
  is_string v || is_null v || is_undefined v.

Definition optional_count (v : Value) : bool :=
  is_count v || is_null v || is_undefined v.

(** Data a company is created from, its handle apart: texts for [name],
    [description] and [logoUrl], a count for [numEmployees], each possibly
    absent. *)
Definition company_data (data : Obj) : Prop :=
  optional_text (prop data "name") = true
  ∧ optional_text (prop data "description") = true
  ∧ optional_count (prop data "numEmployees") = true
  ∧ optional_text (prop data "logoUrl") = true.

Definition optional_decimal (v : Value) : bool :=
  is_decimal v || is_null v || is_undefined v.

(** Data a job is created from, its company apart: a text for [title], a
    count for [salary], a decimal text for [equity], each possibly absent. *)
Definition job_data (data : Obj) : Prop :=
  optional_text (prop data "title") = true
  ∧ optional_count (prop data "salary") = true
  ∧ optional_decimal (prop data "equity") = true.

(** The row an INSERT makes of the data. *)
Definition company_row (h : string) (data : Obj) : Store.CompanyRow :=
  {| Store.c_handle := h;
     Store.c_name := nullify (prop data "name");
     Store.c_description := nullify (prop data "description");
     Store.c_num_employees := nullify (prop data "numEmployees");
     Store.c_logo_url := nullify (prop data "logoUrl") |}.

Definition job_row (i : Z) (h : string) (data : Obj) : Store.JobRow :=
  {| Store.j_id := i;
     Store.j_title := nullify (prop data "title");
     Store.j_salary := nullify (prop data "salary");
     Store.j_equity := nullify (prop data "equity");
     Store.j_company_handle := h |}.

(** The store with one more company, one more job. *)
Definition add_company (c : Store.CompanyRow) (st : Store.State) : Store.State :=
  {| Store.companies := Store.companies st ++ [c];
     Store.jobs := Store.jobs st;
     Store.next_id := Store.next_id st |}.

Definition add_job (j : Store.JobRow) (st : Store.State) : Store.State :=
  {| Store.companies := Store.companies st;
     Store.jobs := Store.jobs st ++ [j];
     Store.next_id := Store.next_id st + 1 |}.

(** The fields an update may name. *)
Definition company_fields : list string :=
  ["name"; "description"; "logoUrl"; "numEmployees"].

Definition job_fields : list string := ["title"; "salary"; "equity"].

(** What a company search asks of a row: each bound that is present holds of
    a known head count, and a name that is present and not empty matches the
    row's name between two wildcards. *)
Definition company_matches (f : CompanyFilter) (c : Store.CompanyRow) : Prop :=
  (∀ n, minEmployees f = Some n →
        ∃ x, Store.c_num_employees c = VNum x ∧ n ≤ x)
  ∧ (∀ n, maxEmployees f = Some n →
          ∃ x, Store.c_num_employees c = VNum x ∧ x ≤ n)
  ∧ (∀ s, name f = Some s → s ≠ EmptyString →
          ∃ t, Store.c_name c = VStr t
               ∧ Store.ilike ("%" +:+ s +:+ "%") t = true).

(** What a job search asks of a job: equity above zero when [hasEquity] is
    [true], a title that matches between two wildcards, a known salary of at
    least the minimum. *)
Definition job_matches (f : JobFilter) (j : Store.JobRow) : Prop :=
  (hasEquity f = Some true → Store.positive_decimal (Store.j_equity j) = true)
  ∧ (∀ s, title f = Some s →
          ∃ t, Store.j_title j = VStr t
               ∧ Store.ilike ("%" +:+ s +:+ "%") t = true)
  ∧ (∀ n, minSalary f = Some n →
          ∃ x, Store.j_salary j = VNum x ∧ n ≤ x).

(** The same tests as the store computes them. *)
Definition company_test (f : CompanyFilter) (c : Store.CompanyRow) : bool :=
  match minEmployees f with
  | Some n => Store.int_ge (Store.c_num_employees c) (VNum n)
  | None => true
  end
  && match maxEmployees f with
     | Some n => Store.int_le (Store.c_num_employees c) (VNum n)
     | None => true
     end
  && match nonempty_name f with
     | Some s => Store.text_ilike (Store.c_name c) (wildcards s)
     | None => true
     end.

Definition job_test (f : JobFilter) (r : Store.Joined) : bool :=
  (if decide (hasEquity f = Some true)
   then Store.positive_decimal (Store.j_equity r.1) else true)
  && match title f with
     | Some s => Store.text_ilike (Store.j_title r.1) (wildcards s)
     | None => true
     end
  && match minSalary f with
     | Some n => Store.int_ge (Store.j_salary r.1) (VNum n)
     | None => true
     end.

(** Ascending in a text key, NULLs last: each row's key is at most the key
    of the next row. *)
Fixpoint ascending {A} (key : A → Value) (l : list A) : Prop :=
  match l with
  | [] => True
  | a :: l' =>
      match l' with
      | [] => True
      | b :: _ => Store.text_le (key a) (key b) = true
      end
      ∧ ascending key l'
  end.

(** A store whose one job names a company that is not there, as a deletion
    between the two reads of [Job.get] leaves it. *)
Definition orphaned : Store.State :=
  {| Store.companies := []; Store.jobs := [Fixture.j1]; Store.next_id := 2 |}.

(** * Properties *)

(** ** The partial-update builder *)

Section Builder.

Variable jsToSql : gmap string string.


Lemma sqlForPartialUpdate_nonempty (data : Obj) :
  data ≠ [] →
  Sql.sqlForPartialUpdate data jsToSql
  = inr {| Sql.setCols := join ", " (imap (Sql.fragment jsToSql) (keys data));
           Sql.values := Js.values data |}.
Proof. by destruct data. Qed.

End Builder.




(** C3: with an empty update mapping the builder fails with the bad-request
    (validation) error "No data" whatever the translation map, and returns
    no clause; the two [update] operations fail the same way, before any
    statement is issued. *)
Theorem empty_update_rejected :
  (∀ M : gmap string string,
     Sql.sqlForPartialUpdate [] M = inl (BadRequestError "No data"))
  ∧ (∀ handle : string,
       Company.update handle [] = Throw (BadRequestError "No data"))
  ∧ (∀ id : Z, Job.update id [] = Throw (BadRequestError "No data"))
  ∧ (∀ (S : Type) (db : Handler S) (st : S) (handle : string) (id : Z),
       exec db (Company.update handle []) st
       = {| result := inl (BadRequestError "No data");
            store := st; issued := [] |}
       ∧ exec db (Job.update id []) st
         = {| result := inl (BadRequestError "No data");
              store := st; issued := [] |}).
Proof. repeat split. Qed.

(** ** The search builders *)

(** C4: when both bounds are present and the minimum exceeds the maximum,
    the company search throws the bad-request (validation) error at once:
    the operation is a bare [Throw], so that on every store it issues no
    statement and leaves the state as it was. *)
Theorem findAll_min_exceeds_max (f : CompanyFilter) (lo hi : Z) :
  minEmployees f = Some lo →
  maxEmployees f = Some hi →
  hi < lo →
  Company.findAll f
  = Throw (BadRequestError "Minimum employees cannot exceed maximum employees")
  ∧ ∀ (S : Type) (db : Handler S) (st : S),
      exec db (Company.findAll f) st
      = {| result :=
             inl (BadRequestError
                    "Minimum employees cannot exceed maximum employees");
           store := st; issued := [] |}.
Proof.
  intros Hlo Hhi Hlt.
  assert (Company.findAll f
          = Throw (BadRequestError
                     "Minimum employees cannot exceed maximum employees")) as E.
  { unfold Company.findAll, js_gt. rewrite Hlo, Hhi.
    by destruct (Z.ltb_spec hi lo); [|lia]. }
  split; [exact E|]. intros S db st. by rewrite E.
Qed.

Lemma findAll_min_exceeds_max_witness :
  (3 < 5)
  ∧ Company.findAll
      {| name := None; minEmployees := Some 5; maxEmployees := Some 3 |}
    = Throw (BadRequestError "Minimum employees cannot exceed maximum employees").
Proof.
  split; [lia|].
  apply (findAll_min_exceeds_max
           {| name := None; minEmployees := Some 5; maxEmployees := Some 3 |}
           5 3); [reflexivity | reflexivity | lia].
Defined.

Lemma js_gt_valid (f : CompanyFilter) :
  valid_filter f → js_gt (minEmployees f) (maxEmployees f) = false.
Proof.
  unfold valid_filter, js_gt. intros Hv.
  destruct (minEmployees f) as [lo|], (maxEmployees f) as [hi|]; try done.
  specialize (Hv lo hi eq_refl eq_refl). by destruct (Z.ltb_spec hi lo); [lia|].
Qed.

(** The statement of a valid company search. *)
Lemma company_findAll_statement (f : CompanyFilter) :
  valid_filter f →
  Company.findAll f
  = Query (spec_listing Company.mainQuery " ORDER BY name" (spec_company_preds f))
          (spec_values (spec_company_preds f)) Ret.
Proof.
  intros Hv. unfold Company.findAll. rewrite (js_gt_valid f Hv).
  unfold Company.clauses, spec_company_preds, nonempty_name.
  destruct (minEmployees f), (maxEmployees f), (name f) as [s|];
    try reflexivity;
    (destruct (decide (s = EmptyString)) as [->|Hs]; [reflexivity|]);
    simpl; (destruct (String.eqb_spec s EmptyString); [done|]); reflexivity.
Qed.

(** The statement of a job search. *)
Lemma job_findAll_statement (f : JobFilter) :
  Job.findAll f
  = Query (spec_listing Job.mainQuery " ORDER BY title" (spec_job_preds f))
          (spec_values (spec_job_preds f)) Ret.
Proof.
  unfold Job.findAll, Job.clauses, spec_job_preds.
  destruct (hasEquity f) as [[]|], (title f), (minSalary f); reflexivity.
Qed.

(** C5 (as amended): for a valid filter the company search issues one
    statement: the projection of the five company columns from [companies],
    then, when there is a predicate, WHERE and the predicates joined by AND,
    in the order minimum, maximum, name, each with the placeholder of its
    position, then ORDER BY name; the parameters are the values in the same
    order, the name between two [%].  The name gives a predicate when it is
    present and not the empty string. *)
Theorem company_findAll_predicates (f : CompanyFilter) :
  valid_filter f →
  let ps :=
    when (minEmployees f) (λ n, Bound "num_employees >= " (VNum n))
    ++ when (maxEmployees f) (λ n, Bound "num_employees <= " (VNum n))
    ++ when (nonempty_name f) (λ s, Bound "name ILIKE " (VStr ("%" +:+ s +:+ "%")))
  in
  Company.findAll f
  = Query (spec_listing Company.mainQuery " ORDER BY name" ps)
          (spec_values ps) Ret
  ∧ (ps = [] →
     Company.findAll f
     = Query (Company.mainQuery +:+ " ORDER BY name") [] Ret).
Proof.
  intros Hv ps. pose proof (company_findAll_statement f Hv) as E.
  split; [exact E|]. intros Hps. rewrite E.
  change (spec_company_preds f) with ps. by rewrite Hps.
Qed.

Lemma company_findAll_predicates_witness :
  valid_filter {| name := Some "net"; minEmployees := Some 1;
                  maxEmployees := Some 5 |}
  ∧ Company.findAll {| name := Some "net"; minEmployees := Some 1;
                       maxEmployees := Some 5 |}
    = Query (Company.mainQuery
               +:+ " WHERE num_employees >= $1 AND num_employees <= $2 AND name ILIKE $3"
               +:+ " ORDER BY name")
            [VNum 1; VNum 5; VStr "%net%"] Ret.
Proof.
  assert (valid_filter {| name := Some "net"; minEmployees := Some 1;
                          maxEmployees := Some 5 |}) as Hv.
  { intros lo hi [= <-] [= <-]. lia. }
  split; [exact Hv|].
  exact (proj1 (company_findAll_predicates _ Hv)).
Defined.

(** C5 (as stated) fails for a name that is present but empty: no predicate
    is built for it, and the unfiltered listing is issued. *)
Lemma company_findAll_empty_name :
  let f := {| name := Some EmptyString; minEmployees := None;
              maxEmployees := None |} in
  valid_filter f
  ∧ spec_company_preds_if_present f = [Bound "name ILIKE " (VStr "%%")]
  ∧ Company.findAll f = Query (Company.mainQuery +:+ " ORDER BY name") [] Ret
  ∧ Company.findAll f
    ≠ Query (spec_listing Company.mainQuery " ORDER BY name"
               (spec_company_preds_if_present f))
            (spec_values (spec_company_preds_if_present f)) Ret.
Proof.
  split; [|split; [|split]]; [by intros lo hi [=] | done | done |].
  vm_compute. discriminate.
Qed.

(** C6: the job search issues one statement for every filter: the
    projection, which joins [jobs] with [companies] and adds the company
    name, then, when there is a predicate, WHERE and the predicates joined by
    AND in the order equity, title, salary, then ORDER BY title.  The equity
    predicate is there exactly when [hasEquity] is [true] and takes no
    parameter; the title (between two [%]) and the minimum salary take the
    placeholders 1, 2 in that order. *)
Theorem job_findAll_predicates (f : JobFilter) :
  let ps :=
    (if decide (hasEquity f = Some true) then [Bare "equity > 0"] else [])
    ++ when (title f) (λ s, Bound "title ILIKE " (VStr ("%" +:+ s +:+ "%")))
    ++ when (minSalary f) (λ n, Bound "salary >= " (VNum n))
  in
  Job.findAll f
  = Query (spec_listing Job.mainQuery " ORDER BY title" ps) (spec_values ps) Ret
  ∧ (∃ projection : string,
       Job.mainQuery
       = projection +:+ "c.name" +:+ nl
         +:+ "                         FROM jobs AS j" +:+ nl
         +:+ "                         JOIN companies AS c ON j.company_handle = c.handle").
Proof.
  intros ps. split; [apply job_findAll_statement|].
  exists ("SELECT j.id, " +:+ nl +:+
          "                                j.title, " +:+ nl +:+
          "                                j.salary, " +:+ nl +:+
          "                                j.equity, " +:+ nl +:+
          "                                j.company_handle AS " +:+ dq +:+ "companyHandle" +:+ dq +:+ ", " +:+ nl +:+
          "                                ").
  reflexivity.
Qed.

(** The text of a listing depends on the predicates only through which are
    there. *)
Lemma is_Some_iff_cases {A B} (a : option A) (b : option B) :
  (is_Some a ↔ is_Some b) →
  (a = None ∧ b = None) ∨ (∃ x y, a = Some x ∧ b = Some y).
Proof.
  destruct a as [x|], b as [y|]; intros [H1 H2]; eauto.
  - destruct H1 as [? [=]]. eauto.
  - destruct H2 as [? [=]]. eauto.
Qed.

(** C10 (as amended): two valid company filters with the same fields present
    that agree on whether the name is the empty string give the same
    statement text; two job filters with the same fields present that agree
    on whether [hasEquity] is [true] give the same statement text.  Beyond
    those two tests the values of a filter reach the positional parameters
    only. *)
Theorem findAll_text_noninterference :
  (∀ f g : CompanyFilter,
     valid_filter f → valid_filter g →
     same_fields_company f g →
     (name f = Some EmptyString ↔ name g = Some EmptyString) →
     ∃ t : string,
       text <$> first_statement (Company.findAll f) = Some t
       ∧ text <$> first_statement (Company.findAll g) = Some t)
  ∧ (∀ f g : JobFilter,
       same_fields_job f g →
       (hasEquity f = Some true ↔ hasEquity g = Some true) →
       ∃ t : string,
         text <$> first_statement (Job.findAll f) = Some t
         ∧ text <$> first_statement (Job.findAll g) = Some t).
Proof.
  split.
  - intros f g Hf Hg (Hn & Hlo & Hhi) He.
    rewrite (company_findAll_statement f Hf), (company_findAll_statement g Hg).
    simpl. eexists. split; [reflexivity|]. f_equal.
    unfold spec_company_preds, nonempty_name.
    destruct (is_Some_iff_cases _ _ Hlo) as [[-> ->]|(? & ? & -> & ->)],
             (is_Some_iff_cases _ _ Hhi) as [[-> ->]|(? & ? & -> & ->)],
             (is_Some_iff_cases _ _ Hn) as [[En En']|(s & s' & En & En')];
      rewrite En, En' in *; try reflexivity;
      destruct (decide (s = EmptyString)) as [->|Hs],
               (decide (s' = EmptyString)) as [->|Hs'];
      try reflexivity;
      solve [ destruct He as [He _]; specialize (He eq_refl); congruence
            | destruct He as [_ He]; specialize (He eq_refl); congruence ].
  - intros f g (Ht & Hs & _) He.
    rewrite (job_findAll_statement f), (job_findAll_statement g).
    simpl. eexists. split; [reflexivity|]. f_equal.
    unfold spec_job_preds.
    destruct (is_Some_iff_cases _ _ Ht) as [[-> ->]|(? & ? & -> & ->)],
             (is_Some_iff_cases _ _ Hs) as [[-> ->]|(? & ? & -> & ->)],
             (decide (hasEquity f = Some true)) as [E|E],
             (decide (hasEquity g = Some true)) as [E'|E'];
      try reflexivity; tauto.
Qed.

Lemma findAll_text_noninterference_witness :
  let f := {| title := Some "a"; minSalary := Some 1; hasEquity := Some false |} in
  let g := {| title := Some "b"; minSalary := Some 2; hasEquity := Some false |} in
  same_fields_job f g
  ∧ (hasEquity f = Some true ↔ hasEquity g = Some true)
  ∧ ∃ t : string,
      text <$> first_statement (Job.findAll f) = Some t
      ∧ text <$> first_statement (Job.findAll g) = Some t.
Proof.
  intros f g.
  assert (same_fields_job f g) as Hsame.
  { repeat split; intros _; eexists; reflexivity. }
  assert (hasEquity f = Some true ↔ hasEquity g = Some true) as He.
  { split; intros [=]. }
  split; [exact Hsame|]. split; [exact He|].
  exact (proj2 findAll_text_noninterference f g Hsame He).
Defined.

(** C10 (as stated) fails on both searches: [hasEquity] present in both job
    filters, [true] in one and [false] in the other, and [name] present in
    both company filters, empty in one, give different statement texts. *)
Lemma findAll_text_depends_on_values :
  (let f := {| title := None; minSalary := None; hasEquity := Some true |} in
   let g := {| title := None; minSalary := None; hasEquity := Some false |} in
   same_fields_job f g
   ∧ text <$> first_statement (Job.findAll f)
     ≠ text <$> first_statement (Job.findAll g))
  ∧ (let f := {| name := Some "a"; minEmployees := None; maxEmployees := None |} in
     let g := {| name := Some EmptyString; minEmployees := None;
                 maxEmployees := None |} in
     valid_filter f ∧ valid_filter g ∧ same_fields_company f g
     ∧ text <$> first_statement (Company.findAll f)
       ≠ text <$> first_statement (Company.findAll g)).
Proof.
  split.
  - split.
    + repeat split; try (intros _; eexists; reflexivity); intros [? [=]].
    + vm_compute. discriminate.
  - split; [by intros ?? [=]|]. split; [by intros ?? [=]|]. split.
    + repeat split; try (intros _; eexists; reflexivity); intros [? [=]].
    + vm_compute. discriminate.
Qed.

(** ** The reference store recognises the statements of the models *)

Lemma append_cons (x : ascii) (a b : string) :
  String x a +:+ b = String x (a +:+ b).
Proof. reflexivity. Qed.

Lemma append_nil (b : string) : EmptyString +:+ b = b.
Proof. reflexivity. Qed.

Lemma append_assoc (a b c : string) : (a +:+ b) +:+ c = a +:+ b +:+ c.
Proof.
  induction a as [|x a IH]; [done|]. rewrite !append_cons. by f_equal.
Qed.

Lemma length_append (a b : string) :
  String.length (a +:+ b) = (String.length a + String.length b)%nat.
Proof.
  induction a as [|x a IH]; [done|]. rewrite append_cons. simpl. by f_equal.
Qed.

Lemma strip_prefix_app (p s : string) : Store.strip_prefix p (p +:+ s) = Some s.
Proof.
  induction p as [|a p IH]; [done|].
  rewrite append_cons. simpl. by rewrite Ascii.eqb_refl.
Qed.

Lemma until_dq_app (c r : string) :
  has_dq c = false → Store.until_dq (c +:+ dq +:+ r) = Some (c, r).
Proof.
  induction c as [|x c IH]; [done|]. simpl.
  intros [Hx Hc]%orb_false_iff. rewrite Hx, (IH Hc). done.
Qed.

Lemma parse_assignment_render (n : nat) (c rest : string) :
  has_dq c = false →
  Store.parse_assignment n
    ((dq +:+ c +:+ dq +:+ "=$" +:+ pretty n) +:+ rest) = Some (c, rest).
Proof.
  intros Hc. unfold Store.parse_assignment.
  rewrite !append_assoc, strip_prefix_app. simpl.
  rewrite (until_dq_app c _ Hc). simpl.
  rewrite !append_nil, strip_prefix_app. done.
Qed.

Lemma parse_set_S (fuel idx : nat) (s : string) :
  Store.parse_set (S fuel) idx s
  = '(col, s) ← Store.parse_assignment idx s;
    match Store.strip_prefix ", " s with
    | None => Some ([col], s)
    | Some s' =>
        '(cols, r) ← Store.parse_set fuel (S idx) s'; Some (col :: cols, r)
    end.
Proof. reflexivity. Qed.

Lemma join_cons (sep x : string) (l : list string) :
  l ≠ [] → join sep (x :: l) = x +:+ sep +:+ join sep l.
Proof. by destruct l. Qed.

Lemma set_list_cons (i : nat) (c c' : string) (cols : list string) :
  set_list i (c :: c' :: cols)
  = (dq +:+ c +:+ dq +:+ "=$" +:+ pretty (S i)) +:+ ", "
    +:+ set_list (S i) (c' :: cols).
Proof.
  unfold set_list. rewrite imap_cons, Nat.add_0_r, join_cons by done.
  do 3 f_equal. apply imap_ext. intros k x _. simpl. do 5 f_equal. lia.
Qed.

Lemma set_list_singleton (i : nat) (c : string) :
  set_list i [c] = dq +:+ c +:+ dq +:+ "=$" +:+ pretty (S i).
Proof. unfold set_list. simpl. by rewrite Nat.add_0_r. Qed.

Lemma parse_set_render (cols : list string) :
  ∀ (i fuel : nat) (tail : string),
    cols ≠ [] →
    Forall (λ c, has_dq c = false) cols →
    Store.strip_prefix ", " tail = None →
    (length cols ≤ fuel)%nat →
    Store.parse_set fuel (S i) (set_list i cols +:+ tail) = Some (cols, tail).
Proof.
  induction cols as [|c cols IH]; [done|].
  intros i fuel tail _ Hdq Htail Hfuel.
  destruct fuel as [|fuel]; [simpl in Hfuel; lia|].
  apply Forall_cons in Hdq as [Hc Hdq].
  rewrite parse_set_S.
  destruct cols as [|c' cols].
  - rewrite set_list_singleton, (parse_assignment_render (S i) c tail Hc).
    cbn [mbind option_bind]. by rewrite Htail.
  - rewrite set_list_cons, append_assoc.
    rewrite (parse_assignment_render (S i) c _ Hc).
    cbn [mbind option_bind]. rewrite append_assoc, strip_prefix_app.
    rewrite (IH (S i) fuel tail); [done|done|done|done|].
    simpl in *. lia.
Qed.

Lemma setCols_set_list (M : gmap string string) (ks : list string) :
  join ", " (imap (Sql.fragment M) ks)
  = set_list 0 (column M <$> ks).
Proof.
  unfold set_list. rewrite imap_fmap. f_equal. apply imap_ext.
  intros k x _. simpl. unfold Sql.fragment. by rewrite Nat.add_1_r.
Qed.

Lemma length_set_list (cols : list string) :
  ∀ i, (length cols ≤ String.length (set_list i cols))%nat.
Proof.
  induction cols as [|c [|c' cols] IH]; intros i.
  - simpl. lia.
  - rewrite set_list_singleton, length_append. simpl. lia.
  - rewrite set_list_cons, !length_append. specialize (IH (S i)).
    simpl in *. lia.
Qed.

Lemma eqb_first_char (s t : string) :
  String.get 0 s ≠ String.get 0 t → String.eqb s t = false.
Proof. intros H. apply String.eqb_neq. by intros ->. Qed.

Lemma company_updateSql_parts (setCols idx : string) :
  Company.updateSql setCols idx
  = Store.company_update_head +:+ setCols +:+ Store.company_update_tail idx.
Proof. reflexivity. Qed.

Lemma job_updateSql_parts (setCols idx : string) :
  Job.updateSql setCols idx
  = Store.job_update_head +:+ setCols +:+ Store.job_update_tail idx.
Proof. reflexivity. Qed.

Lemma parse_update_render (head : string) (tail : string → string)
    (cols : list string) :
  cols ≠ [] →
  Forall (λ c, has_dq c = false) cols →
  (∀ idx, Store.strip_prefix ", " (tail idx) = None) →
  Store.parse_update head tail
    (head +:+ set_list 0 cols +:+ tail ("$" +:+ pretty (S (length cols))))
  = Some cols.
Proof.
  intros Hne Hdq Htail. unfold Store.parse_update.
  rewrite strip_prefix_app. cbn [mbind option_bind].
  rewrite (parse_set_render cols 0 _ _ Hne Hdq (Htail _)).
  - cbn [mbind option_bind]. by rewrite String.eqb_refl.
  - rewrite length_append. pose proof (length_set_list cols 0). lia.
Qed.

Lemma decode_company_update (cols : list string) :
  cols ≠ [] →
  Forall (λ c, has_dq c = false) cols →
  Store.decode
    (Company.updateSql (set_list 0 cols) ("$" +:+ pretty (S (length cols))))
  = Some (Store.CompanyUpdate cols).
Proof.
  intros Hne Hdq. unfold Store.decode.
  rewrite !(eqb_first_char (Company.updateSql _ _)) by (vm_compute; discriminate).
  rewrite company_updateSql_parts.
  rewrite (parse_update_render _ _ cols Hne Hdq); done.
Qed.

Lemma decode_job_update (cols : list string) :
  cols ≠ [] →
  Forall (λ c, has_dq c = false) cols →
  Store.decode
    (Job.updateSql (set_list 0 cols) ("$" +:+ pretty (S (length cols))))
  = Some (Store.JobUpdate cols).
Proof.
  intros Hne Hdq. unfold Store.decode.
  rewrite !(eqb_first_char (Job.updateSql _ _)) by (vm_compute; discriminate).
  assert (Store.parse_update Store.company_update_head Store.company_update_tail
            (Job.updateSql (set_list 0 cols) ("$" +:+ pretty (S (length cols))))
          = None) as ->.
  { reflexivity. }
  rewrite job_updateSql_parts.
  rewrite (parse_update_render _ _ cols Hne Hdq); done.
Qed.

Lemma exec_from_query {S A} (db : Handler S) (t : string) (ps : list Value)
    (k : list Obj → Prog A) (st : S) (log : list Statement) :
  exec_from db (rows ← query t ps; k rows) st log
  = match db t ps st with
    | (inr rows, st') =>
        exec_from db (k rows) st' (log ++ [{| text := t; params := ps |}])
    | (inl e, st') =>
        {| result := inl e; store := st';
           issued := log ++ [{| text := t; params := ps |}] |}
    end.
Proof. reflexivity. Qed.

Lemma db_decoded (t : string) (s : Store.Stmt) (ps : list Value) (st : Store.State) :
  Store.decode t = Some s → Store.db t ps st = Store.run s ps st.
Proof. unfold Store.db. by intros ->. Qed.

Lemma db_company_exists (h : string) (st : Store.State) :
  Store.db Company.duplicateCheckSql [VStr h] st
  = (inr match Store.find_company h st with
         | Some c => [[("handle", VStr (Store.c_handle c))]]
         | None => []
         end, st).
Proof.
  rewrite (db_decoded _ Store.CompanyExists) by (by vm_compute).
  simpl. by destruct (Store.find_company h st).
Qed.

Lemma db_company_select (h : string) (st : Store.State) :
  Store.db Company.selectSql [VStr h] st
  = (inr match Store.find_company h st with
         | Some c => [Store.company_obj c]
         | None => []
         end, st).
Proof.
  rewrite (db_decoded _ Store.CompanySelect) by (by vm_compute).
  simpl. by destruct (Store.find_company h st).
Qed.

Lemma db_company_delete_none (h : string) (st : Store.State) :
  Store.find_company h st = None →
  Store.db Company.deleteSql [VStr h] st = (inr [], st).
Proof.
  intros Hh. rewrite (db_decoded _ Store.CompanyDelete) by (by vm_compute).
  simpl. by rewrite Hh.
Qed.

Lemma db_job_select (i : Z) (st : Store.State) :
  Store.db Job.selectSql [VNum i] st
  = (inr match Store.find_job i st with
         | Some j => [Store.job_obj "companyHandle" j]
         | None => []
         end, st).
Proof.
  rewrite (db_decoded _ (Store.JobSelect "companyHandle")) by (by vm_compute).
  simpl. by destruct (Store.find_job i st).
Qed.

Lemma db_job_delete_none (i : Z) (st : Store.State) :
  Store.find_job i st = None →
  Store.db Job.deleteSql [VNum i] st = (inr [], st).
Proof.
  intros Hi. rewrite (db_decoded _ Store.JobDelete) by (by vm_compute).
  simpl. by rewrite Hi.
Qed.

(** Permitted fields go to columns the store knows, with values it takes. *)
Lemma company_column_cases (k : string) (v : Value) :
  company_field k v = true →
  k ∈ ["name"; "description"; "logoUrl"; "numEmployees"]
  ∧ is_Some (Store.company_setter (column Company.jsToSql k) v).
Proof.
  unfold company_field. intros H.
  repeat match type of H with
  | context [String.eqb k ?s] =>
      destruct (String.eqb_spec k s) as [->|?]; simpl in H
  end; try discriminate;
  (split; [set_solver|]);
  destruct v as [| |?|z|?|?]; try discriminate; vm_compute; eauto.
Qed.

(** A decimal text in the form of a numeric is stored as it is. *)
Lemma job_setter_decimal (s : string) :
  Store.numeric_text s = Some s →
  Store.job_setter (column ∅ "equity") (VStr s)
  = Some (λ j, {| Store.j_id := Store.j_id j; Store.j_title := Store.j_title j;
                  Store.j_salary := Store.j_salary j;
                  Store.j_equity := VStr s;
                  Store.j_company_handle := Store.j_company_handle j |}).
Proof.
  intros E.
  change (Store.job_setter (column ∅ "equity") (VStr s))
    with (v' ← VStr <$> Store.numeric_text s;
          Some (λ j, {| Store.j_id := Store.j_id j;
                        Store.j_title := Store.j_title j;
                        Store.j_salary := Store.j_salary j;
                        Store.j_equity := v';
                        Store.j_company_handle := Store.j_company_handle j |})).
  by rewrite E.
Qed.

Lemma job_field_cases (k : string) (v : Value) :
  job_field k v = true →
  (k = "title" ∧ ∃ s, v = VStr s)
  ∨ (k = "salary" ∧ (v = VNull ∨ ∃ n, v = VNum n))
  ∨ (k = "equity"
     ∧ (v = VNull ∨ ∃ s, v = VStr s ∧ Store.numeric_text s = Some s)).
Proof.
  unfold job_field. intros H.
  destruct (String.eqb_spec k "title") as [->|?]; simpl in H.
  { left. split; [done|]. destruct v; try discriminate. eauto. }
  destruct (String.eqb_spec k "salary") as [->|?]; simpl in H.
  { right; left. split; [done|]. destruct v; try discriminate; eauto. }
  destruct (String.eqb_spec k "equity") as [->|?]; simpl in H; [|discriminate].
  right; right. split; [done|]. destruct v; try discriminate; [eauto|].
  right. eexists. split; [done|]. simpl in H. rewrite orb_false_r in H.
  by apply bool_decide_eq_true in H.
Qed.

Lemma job_column_cases (k : string) (v : Value) :
  job_field k v = true →
  k ∈ ["title"; "salary"; "equity"]
  ∧ is_Some (Store.job_setter (column ∅ k) v).
Proof.
  intros H.
  destruct (job_field_cases k v H)
    as [[-> [s ->]]|[[-> [->|[n ->]]]|[-> [->|(s & -> & E)]]]];
    (split; [set_solver|]);
    try (rewrite (job_setter_decimal s E)); try (vm_compute); eauto.
Qed.

Section PartialData.

Context {R : Type} (field : string → Value → bool)
  (setter : string → Value → option (R → R))
  (M : gmap string string) (allowed : list string).

Hypothesis field_ok :
  ∀ k v, field k v = true → k ∈ allowed ∧ is_Some (setter (column M k) v).
Hypothesis allowed_inj :
  ∀ k k', k ∈ allowed → k' ∈ allowed → column M k = column M k' → k = k'.
Hypothesis allowed_dq : Forall (λ k, has_dq (column M k) = false) allowed.

Lemma partial_setters (data : Obj) (extra : list Value) :
  Forall (λ kv, field kv.1 kv.2 = true) data →
  is_Some (Store.setters setter (column M <$> keys data) (Js.values data ++ extra)).
Proof.
  induction 1 as [|[k v] data Hkv _ IH]; [simpl; eauto|].
  destruct (field_ok k v Hkv) as [_ [f Hf]]. destruct IH as [g Hg].
  exists (λ r, g (f r)).
  change (Store.setters setter (column M <$> keys ((k, v) :: data))
            (Js.values ((k, v) :: data) ++ extra))
    with (f' ← setter (column M k) v;
          g' ← Store.setters setter (column M <$> keys data)
                 (Js.values data ++ extra);
          Some (λ r, g' (f' r))).
  by rewrite Hf, Hg.
Qed.

Lemma partial_columns (data : Obj) :
  partial_data field data →
  NoDup (column M <$> keys data)
  ∧ Forall (λ c, has_dq c = false) (column M <$> keys data).
Proof.
  intros [Hnd Hall].
  assert (Forall (λ k, k ∈ allowed) (keys data)) as Hin.
  { unfold keys. apply Forall_fmap. eapply Forall_impl; [exact Hall|].
    intros [k v] Hkv. by destruct (field_ok k v Hkv). }
  split.
  - apply NoDup_fmap_2_strong; [|done].
    intros k k' Hk Hk'. rewrite Forall_forall in Hin. auto.
  - apply Forall_fmap. eapply Forall_impl; [exact Hin|].
    intros k Hk. rewrite Forall_forall in allowed_dq. by apply allowed_dq.
Qed.

End PartialData.

Lemma company_allowed_inj (k k' : string) :
  k ∈ ["name"; "description"; "logoUrl"; "numEmployees"] →
  k' ∈ ["name"; "description"; "logoUrl"; "numEmployees"] →
  column Company.jsToSql k = column Company.jsToSql k' → k = k'.
Proof.
  rewrite !elem_of_cons, !elem_of_nil.
  intros [->|[->|[->|[->|[]]]]] [->|[->|[->|[->|[]]]]]; vm_compute; congruence.
Qed.

Lemma job_allowed_inj (k k' : string) :
  k ∈ ["title"; "salary"; "equity"] →
  k' ∈ ["title"; "salary"; "equity"] →
  column ∅ k = column ∅ k' → k = k'.
Proof.
  rewrite !elem_of_cons, !elem_of_nil.
  intros [->|[->|[->|[]]]] [->|[->|[->|[]]]]; vm_compute; congruence.
Qed.

Lemma update_last (values : list Value) (v : Value) :
  default VNull (last (values ++ [v])) = v.
Proof. by rewrite last_snoc. Qed.

(** An UPDATE of companies whose key matches no row. *)
Lemma db_company_update_none (h : string) (data : Obj) (st : Store.State) :
  data ≠ [] →
  partial_data company_field data →
  Store.find_company h st = None →
  Store.db
    (Company.updateSql (join ", " (imap (Sql.fragment Company.jsToSql) (keys data)))
       ("$" +:+ pretty (length (Js.values data) + 1)%nat))
    (Js.values data ++ [VStr h]) st
  = (inr [], st).
Proof.
  intros Hne Hp Hh.
  destruct (partial_columns company_field Store.company_setter Company.jsToSql _
              company_column_cases company_allowed_inj
              ltac:(by repeat constructor) data Hp) as [Hnd Hdq].
  destruct (partial_setters company_field Store.company_setter Company.jsToSql _
              company_column_cases data [VStr h] (proj2 Hp)) as [f Hf].
  assert (length (column Company.jsToSql <$> keys data) = length (Js.values data))
    as Hlen by (unfold keys, Js.values; by rewrite !length_fmap).
  rewrite setCols_set_list, Nat.add_1_r, <- Hlen.
  rewrite (db_decoded _ (Store.CompanyUpdate (column Company.jsToSql <$> keys data))).
  2:{ apply decode_company_update; [|done]. destruct data; done. }
  unfold Store.run, Store.run_company_update.
  rewrite length_app, Hlen, Nat.add_1_r, Nat.eqb_refl. simpl negb.
  rewrite (bool_decide_eq_true_2 _ Hnd). simpl negb. cbv iota.
  rewrite Hf, update_last. simpl. by rewrite Hh.
Qed.

Lemma db_job_update_none (i : Z) (data : Obj) (st : Store.State) :
  data ≠ [] →
  partial_data job_field data →
  Store.find_job i st = None →
  Store.db
    (Job.updateSql (join ", " (imap (Sql.fragment ∅) (keys data)))
       ("$" +:+ pretty (length (Js.values data) + 1)%nat))
    (Js.values data ++ [VNum i]) st
  = (inr [], st).
Proof.
  intros Hne Hp Hi.
  destruct (partial_columns job_field Store.job_setter ∅ _
              job_column_cases job_allowed_inj
              ltac:(by repeat constructor) data Hp) as [Hnd Hdq].
  destruct (partial_setters job_field Store.job_setter ∅ _
              job_column_cases data [VNum i] (proj2 Hp)) as [f Hf].
  assert (length (column ∅ <$> keys data) = length (Js.values data))
    as Hlen by (unfold keys, Js.values; by rewrite !length_fmap).
  rewrite setCols_set_list, Nat.add_1_r, <- Hlen.
  rewrite (db_decoded _ (Store.JobUpdate (column ∅ <$> keys data))).
  2:{ apply decode_job_update; [|done]. destruct data; done. }
  unfold Store.run, Store.run_job_update.
  rewrite length_app, Hlen, Nat.add_1_r, Nat.eqb_refl. simpl negb.
  rewrite (bool_decide_eq_true_2 _ Hnd). simpl negb. cbv iota.
  rewrite Hf, update_last. simpl. by rewrite Hi.
Qed.

Lemma db_job_list (f : JobFilter) (st : Store.State) :
  ∃ rs : list Store.Joined,
    Store.db (spec_listing Job.mainQuery " ORDER BY title" (spec_job_preds f))
      (spec_values (spec_job_preds f)) st
    = (inr (Store.joined_obj <$> rs), st).
Proof.
  unfold spec_job_preds.
  destruct (decide (hasEquity f = Some true)), (title f), (minSalary f);
    (erewrite db_decoded by (by vm_compute)); simpl; eauto.
Qed.

(** ** The Company and Job models on the reference store *)

Lemma company_get_found (st : Store.State) (h : string) (c : Store.CompanyRow) :
  Store.find_company h st = Some c →
  exec Store.db (Company.get h) st
  = {| result := inr (VObj (Store.company_obj c)); store := st;
       issued := [{| text := Company.selectSql; params := [VStr h] |}] |}.
Proof.
  intros Hh. unfold exec, Company.get.
  rewrite exec_from_query, db_company_select, Hh. reflexivity.
Qed.

(** For every company of the store, [get] returns the five columns of its
    row and nothing else. *)
Lemma company_get_has_no_jobs (st : Store.State) (h : string)
    (c : Store.CompanyRow) :
  Store.find_company h st = Some c →
  ∃ company : Obj,
    result (exec Store.db (Company.get h) st) = inr (VObj company)
    ∧ keys company = ["handle"; "name"; "description"; "numEmployees"; "logoUrl"]
    ∧ has_prop company "jobs" = false.
Proof.
  intros Hc. rewrite (company_get_found st h c Hc).
  eexists. split; [reflexivity|]. split; reflexivity.
Qed.

(** C1 (the code departs from it): the documentation of [Company.get]
    promises the company with a [jobs] list.  On the round trip of the
    specification, creating the company [c9] in an empty store and getting it
    back, [get] returns the five company fields and no [jobs] property at
    all; the one statement it issues reads [companies] only. *)
Theorem company_get_returns_no_jobs :
  let created := exec Store.db (Company.create Fixture.nine) Store.empty in
  let got := exec Store.db (Company.get "c9") (store created) in
  result got
  = inr (VObj [("handle", VStr "c9"); ("name", VStr "Nine");
               ("description", VNull); ("numEmployees", VNum 9);
               ("logoUrl", VNull)])
  ∧ match result got with
    | inr company => Js.get company "jobs" = VUndefined
    | inl _ => False
    end
  ∧ issued got = [{| text := Company.selectSql; params := [VStr "c9"] |}].
Proof. split; [|split]; by vm_compute. Qed.

(** C7: creating a company whose handle is already in the store fails with
    the bad-request error "Duplicate company: h" (the error of a duplicate
    key, which the specification names ConflictError); the duplicate check is
    the only statement issued, no INSERT follows, and the store is as it
    was. *)
Theorem company_create_duplicate
    (st : Store.State) (data : Obj) (h : string) (c : Store.CompanyRow) :
  prop data "handle" = VStr h →
  Store.find_company h st = Some c →
  exec Store.db (Company.create data) st
  = {| result := inl (BadRequestError ("Duplicate company: " +:+ h));
       store := st;
       issued := [{| text := Company.duplicateCheckSql; params := [VStr h] |}] |}.
Proof.
  intros Hh Hc. unfold exec, Company.create.
  rewrite exec_from_query, Hh, db_company_exists, Hc. reflexivity.
Qed.

Lemma company_create_duplicate_witness :
  let data : Obj := [("handle", VStr "c1"); ("name", VStr "Again")] in
  prop data "handle" = VStr "c1"
  ∧ Store.find_company "c1" Fixture.st = Some Fixture.c1
  ∧ exec Store.db (Company.create data) Fixture.st
    = {| result := inl (BadRequestError "Duplicate company: c1");
         store := Fixture.st;
         issued := [{| text := Company.duplicateCheckSql;
                       params := [VStr "c1"] |}] |}.
Proof.
  intros data. split; [reflexivity|]. split; [reflexivity|].
  apply (company_create_duplicate Fixture.st data "c1" Fixture.c1);
    reflexivity.
Defined.

(** C8: when the handle matches no company and the id matches no job, every
    get, update and remove fails with the not-found error and the store is
    as it was.  The data of an update is a non-empty partial update of the
    data model. *)
Theorem not_found_leaves_store
    (st : Store.State) (h : string) (i : Z) (cdata jdata : Obj) :
  Store.find_company h st = None →
  Store.find_job i st = None →
  cdata ≠ [] → partial_data company_field cdata →
  jdata ≠ [] → partial_data job_field jdata →
  failed_unchanged st (exec Store.db (Company.update h cdata) st)
    (NotFoundError ("No company: " +:+ h))
  ∧ failed_unchanged st (exec Store.db (Job.remove i) st)
      (NotFoundError ("That job does not exist: job id " +:+ pretty i))
  ∧ failed_unchanged st (exec Store.db (Company.get h) st) (not_found_company h)
  ∧ failed_unchanged st (exec Store.db (Company.remove h) st) (not_found_company h)
  ∧ failed_unchanged st (exec Store.db (Job.get i) st) (not_found_job i)
  ∧ failed_unchanged st (exec Store.db (Job.update i jdata) st) (not_found_job i).
Proof.
  intros Hh Hi Hc Hcp Hj Hjp. unfold failed_unchanged, exec.
  assert (∀ data M, data ≠ [] →
            call (Sql.sqlForPartialUpdate data M)
            = Ret {| Sql.setCols := join ", " (imap (Sql.fragment M) (keys data));
                     Sql.values := Js.values data |}) as Hcall.
  { intros data M Hd. by rewrite (sqlForPartialUpdate_nonempty M data Hd). }
  repeat apply conj.
  1, 2: unfold Company.update; rewrite (Hcall _ _ Hc);
        cbn [mbind Prog_bind bind]; rewrite exec_from_query;
        cbn [Sql.setCols Sql.values];
        by rewrite (db_company_update_none h cdata st Hc Hcp Hh).
  1, 2: unfold Job.remove;
        by rewrite exec_from_query, (db_job_delete_none i st Hi).
  1, 2: unfold Company.get; by rewrite exec_from_query, db_company_select, Hh.
  1, 2: unfold Company.remove;
        by rewrite exec_from_query, (db_company_delete_none h st Hh).
  1, 2: unfold Job.get; by rewrite exec_from_query, db_job_select, Hi.
  1, 2: unfold Job.update; rewrite (Hcall _ _ Hj);
        cbn [mbind Prog_bind bind]; rewrite exec_from_query;
        cbn [Sql.setCols Sql.values];
        by rewrite (db_job_update_none i jdata st Hj Hjp Hi).
Qed.

Lemma not_found_leaves_store_witness :
  let cdata : Obj := [("name", VStr "x")] in
  let jdata : Obj := [("title", VStr "x")] in
  Store.find_company "nonexistent" Fixture.st = None
  ∧ Store.find_job 999999999 Fixture.st = None
  ∧ partial_data company_field cdata
  ∧ partial_data job_field jdata
  ∧ failed_unchanged Fixture.st
      (exec Store.db (Company.update "nonexistent" cdata) Fixture.st)
      (NotFoundError "No company: nonexistent")
  ∧ failed_unchanged Fixture.st
      (exec Store.db (Job.remove 999999999) Fixture.st)
      (NotFoundError "That job does not exist: job id 999999999").
Proof.
  intros cdata jdata.
  assert (partial_data company_field cdata) as Hc.
  { split; [apply NoDup_singleton | by repeat constructor]. }
  assert (partial_data job_field jdata) as Hj.
  { split; [apply NoDup_singleton | by repeat constructor]. }
  split; [reflexivity|]. split; [reflexivity|]. split; [exact Hc|].
  split; [exact Hj|].
  destruct (not_found_leaves_store Fixture.st "nonexistent" 999999999
              cdata jdata eq_refl eq_refl ltac:(discriminate) Hc
              ltac:(discriminate) Hj) as (H1 & H2 & _).
  split; [exact H1 | exact H2].
Defined.

(** C9: for a job of the store whose company is in the store, [Job.get]
    reads the job, then the company by the job's handle, and returns the job
    with the whole company record under [companyHandle] in place of the
    handle; for an id that matches no job it fails with the not-found error
    after the first statement.  The rows of [Job.findAll] carry the handle
    itself, a string, under [companyHandle]. *)
Theorem job_get_nests_company (st : Store.State) (i : Z) :
  (∀ (j : Store.JobRow) (c : Store.CompanyRow),
     Store.find_job i st = Some j →
     Store.find_company (Store.j_company_handle j) st = Some c →
     exec Store.db (Job.get i) st
     = {| result :=
            inr (VObj [("id", VNum (Store.j_id j)); ("title", Store.j_title j);
                       ("salary", Store.j_salary j);
                       ("equity", Store.j_equity j);
                       ("companyHandle", VObj (Store.company_obj c))]);
          store := st;
          issued :=
            [{| text := Job.selectSql; params := [VNum i] |};
             {| text := Job.companySql;
                params := [VStr (Store.j_company_handle j)] |}] |})
  ∧ (Store.find_job i st = None →
     exec Store.db (Job.get i) st
     = {| result :=
            inl (NotFoundError
                   ("That job does not exist: job id " +:+ pretty i));
          store := st;
          issued := [{| text := Job.selectSql; params := [VNum i] |}] |})
  ∧ (∀ f : JobFilter,
       ∃ rows : list Obj,
         result (exec Store.db (Job.findAll f) st) = inr rows
         ∧ Forall (λ row, ∃ h : string, prop row "companyHandle" = VStr h) rows).
Proof.
  split; [|split].
  - intros j c Hj Hc. unfold exec, Job.get.
    rewrite exec_from_query, db_job_select, Hj.
    cbn [first_row truthy negb]. cbv iota.
    rewrite exec_from_query.
    change (Js.get (VObj (Store.job_obj "companyHandle" j)) "companyHandle")
      with (VStr (Store.j_company_handle j)).
    change Job.companySql with Company.selectSql.
    rewrite db_company_select, Hc. reflexivity.
  - intros Hi. unfold exec, Job.get.
    by rewrite exec_from_query, db_job_select, Hi.
  - intros f. rewrite job_findAll_statement. unfold exec, query.
    destruct (db_job_list f st) as [rs Hrs].
    exists (Store.joined_obj <$> rs). split.
    + change (Query ?t ?ps Ret) with (rows ← query t ps; Ret rows).
      by rewrite exec_from_query, Hrs.
    + apply Forall_fmap, Forall_forall. intros r _.
      by exists (Store.j_company_handle r.1).
Qed.

Lemma job_get_nests_company_witness :
  Store.find_job 1 Fixture.st = Some Fixture.j1
  ∧ Store.find_company "c1" Fixture.st = Some Fixture.c1
  ∧ result (exec Store.db (Job.get 1) Fixture.st)
    = inr (VObj [("id", VNum 1); ("title", VStr "J1"); ("salary", VNum 1);
                 ("equity", VStr "0.1");
                 ("companyHandle",
                  VObj [("handle", VStr "c1"); ("name", VStr "C1");
                        ("description", VStr "Desc1");
                        ("numEmployees", VNum 1);
                        ("logoUrl", VStr "http://c1.img")])]).
Proof.
  split; [reflexivity|]. split; [reflexivity|].
  rewrite (proj1 (job_get_nests_company Fixture.st 1)
             Fixture.j1 Fixture.c1 eq_refl eq_refl).
  reflexivity.
Defined.

(** * Further properties of the models *)

(** ** Creating, and reading back *)

Lemma find_company_add_fresh (c : Store.CompanyRow) (st : Store.State) :
  Store.find_company (Store.c_handle c) st = None →
  Store.find_company (Store.c_handle c) (add_company c st) = Some c.
Proof.
  unfold Store.find_company, add_company. simpl.
  induction (Store.companies st) as [|c' cs IH]; simpl.
  - by rewrite String.eqb_refl.
  - destruct (String.eqb (Store.c_handle c') (Store.c_handle c)); [done|auto].
Qed.


Lemma find_job_add_fresh (j : Store.JobRow) (st : Store.State) :
  Store.find_job (Store.j_id j) st = None →
  Store.find_job (Store.j_id j) (add_job j st) = Some j.
Proof.
  unfold Store.find_job, add_job. simpl.
  induction (Store.jobs st) as [|j' js IH]; simpl.
  - by rewrite Z.eqb_refl.
  - destruct (Store.j_id j' =? Store.j_id j); [done|auto].
Qed.

Lemma store_optional_text (v : Value) :
  optional_text v = true → Store.store_value Store.TText v = Some (nullify v).
Proof. by destruct v. Qed.

Lemma store_optional_count (v : Value) :
  optional_count v = true → Store.store_value Store.TInt v = Some (nullify v).
Proof. by destruct v. Qed.

Lemma store_optional_decimal (v : Value) :
  optional_decimal v = true →
  Store.store_value Store.TNumeric v = Some (nullify v).
Proof.
  destruct v; try done. unfold optional_decimal, is_decimal. simpl.
  rewrite !orb_false_r. intros E%bool_decide_eq_true. by rewrite E.
Qed.

(** The INSERT of a company the store does not have. *)
Lemma db_company_insert (st : Store.State) (data : Obj) (h : string) :
  Store.find_company h st = None →
  company_data data →
  Store.db Company.insertSql
    [VStr h; prop data "name"; prop data "description";
     prop data "numEmployees"; prop data "logoUrl"] st
  = (inr [Store.company_obj (company_row h data)],
     add_company (company_row h data) st).
Proof.
  intros Hh (Hn & Hd & He & Hl).
  rewrite (db_decoded _ Store.CompanyInsert) by (by vm_compute).
  unfold Store.run, Store.run_company_insert.
  rewrite (store_optional_text _ Hn), (store_optional_text _ Hd),
    (store_optional_count _ He), (store_optional_text _ Hl).
  simpl. by rewrite Hh.
Qed.

Lemma company_create_fresh (st : Store.State) (data : Obj) (h : string) :
  prop data "handle" = VStr h →
  Store.find_company h st = None →
  company_data data →
  exec Store.db (Company.create data) st
  = {| result := inr (VObj (Store.company_obj (company_row h data)));
       store := add_company (company_row h data) st;
       issued :=
         [{| text := Company.duplicateCheckSql; params := [VStr h] |};
          {| text := Company.insertSql;
             params := [VStr h; prop data "name"; prop data "description";
                        prop data "numEmployees"; prop data "logoUrl"] |}] |}.
Proof.
  intros Hh Hfresh Hdata. unfold exec, Company.create.
  rewrite exec_from_query, Hh, db_company_exists, Hfresh.
  cbn [first_row truthy]. cbv iota.
  rewrite exec_from_query, (db_company_insert st data h Hfresh Hdata).
  reflexivity.
Qed.

(** X1: a company whose handle is new to the store is created by the
    duplicate check and one INSERT; the record returned has the handle and
    the four fields of the data, an absent field as null; [get] then returns
    that same record, and a second [create] of the same data is refused with
    the store left as the first made it. *)
Theorem company_create_then_get (st : Store.State) (data : Obj) (h : string) :
  prop data "handle" = VStr h →
  Store.find_company h st = None →
  company_data data →
  let made := exec Store.db (Company.create data) st in
  result made
  = inr (VObj [("handle", VStr h); ("name", nullify (prop data "name"));
               ("description", nullify (prop data "description"));
               ("numEmployees", nullify (prop data "numEmployees"));
               ("logoUrl", nullify (prop data "logoUrl"))])
  ∧ text <$> issued made = [Company.duplicateCheckSql; Company.insertSql]
  ∧ result (exec Store.db (Company.get h) (store made)) = result made
  ∧ failed_unchanged (store made)
      (exec Store.db (Company.create data) (store made))
      (BadRequestError ("Duplicate company: " +:+ h)).
Proof.
  intros Hh Hfresh Hdata made. subst made.
  rewrite (company_create_fresh st data h Hh Hfresh Hdata).
  cbn [result store issued].
  pose proof (find_company_add_fresh (company_row h data) st Hfresh) as Hnew.
  cbn [company_row Store.c_handle] in Hnew. fold (company_row h data) in Hnew.
  split; [reflexivity|]. split; [reflexivity|]. split.
  - by rewrite (company_get_found _ h _ Hnew).
  - unfold failed_unchanged, exec, Company.create.
    by rewrite exec_from_query, Hh, db_company_exists, Hnew.
Qed.

Lemma company_create_then_get_witness :
  prop Fixture.nine "handle" = VStr "c9"
  ∧ Store.find_company "c9" Fixture.st = None
  ∧ company_data Fixture.nine
  ∧ result (exec Store.db (Company.get "c9")
              (store (exec Store.db (Company.create Fixture.nine) Fixture.st)))
    = inr (VObj [("handle", VStr "c9"); ("name", VStr "Nine");
                 ("description", VNull); ("numEmployees", VNum 9);
                 ("logoUrl", VNull)]).
Proof.
  assert (company_data Fixture.nine) as Hd by (by repeat split).
  split; [reflexivity|]. split; [reflexivity|]. split; [exact Hd|].
  destruct (company_create_then_get Fixture.st Fixture.nine "c9"
              eq_refl eq_refl Hd) as (H1 & _ & H3 & _).
  rewrite H3, H1. reflexivity.
Defined.




(** ** Updating *)

Section SettersEffect.

Context {R K : Type} (field : string → Value → bool)
  (setter : string → Value → option (R → R))
  (M : gmap string string) (obj : R → Obj) (keyof : R → K).

Hypothesis single :
  ∀ k v f, field k v = true → setter (column M k) v = Some f →
    ∀ r, keyof (f r) = keyof r
         ∧ prop (obj (f r)) k = v
         ∧ ∀ k', k' ≠ k → prop (obj (f r)) k' = prop (obj r) k'.

Lemma setters_effect (data : Obj) (extra : list Value) :
  NoDup (keys data) →
  Forall (λ kv, field kv.1 kv.2 = true) data →
  ∀ f, Store.setters setter (column M <$> keys data) (Js.values data ++ extra)
       = Some f →
  ∀ r, keyof (f r) = keyof r
       ∧ (∀ k v, (k, v) ∈ data → prop (obj (f r)) k = v)
       ∧ (∀ k, k ∉ keys data → prop (obj (f r)) k = prop (obj r) k).
Proof.
  induction data as [|[k v] data IH]; intros Hnd Hall f Hf r.
  - simpl in Hf. injection Hf as <-. split; [done|]. split; [|done].
    intros k v H. by apply elem_of_nil in H.
  - apply NoDup_cons in Hnd as [Hk Hnd]. apply Forall_cons in Hall as [Hkv Hall].
    change (Store.setters setter (column M <$> keys ((k, v) :: data))
              (Js.values ((k, v) :: data) ++ extra))
      with (f' ← setter (column M k) v;
            g' ← Store.setters setter (column M <$> keys data)
                   (Js.values data ++ extra);
            Some (λ r, g' (f' r))) in Hf.
    destruct (setter (column M k) v) as [f1|] eqn:E1; [|done].
    cbn [mbind option_bind] in Hf.
    destruct (Store.setters setter (column M <$> keys data)
                (Js.values data ++ extra)) as [g|] eqn:E2; [|done].
    cbn [mbind option_bind] in Hf. injection Hf as <-.
    destruct (single k v f1 Hkv E1 r) as (S1 & S2 & S3).
    destruct (IH Hnd Hall g eq_refl (f1 r)) as (I1 & I2 & I3).
    split; [congruence|]. split.
    + intros k' v' [[= -> ->]|Hin]%elem_of_cons.
      * by rewrite (I3 k Hk).
      * by apply I2.
    + intros k' Hk'. apply not_elem_of_cons in Hk' as [Hne Hk'].
      rewrite (I3 k' Hk'). by apply S3.
Qed.

End SettersEffect.

Lemma company_setter_single (k : string) (v : Value)
    (f : Store.CompanyRow → Store.CompanyRow) :
  company_field k v = true →
  Store.company_setter (column Company.jsToSql k) v = Some f →
  ∀ c, Store.c_handle (f c) = Store.c_handle c
       ∧ prop (Store.company_obj (f c)) k = v
       ∧ ∀ k', k' ≠ k →
           prop (Store.company_obj (f c)) k' = prop (Store.company_obj c) k'.
Proof.
  unfold company_field. intros H Hf c.
  repeat match type of H with
  | context [String.eqb k ?s] =>
      destruct (String.eqb_spec k s) as [->|?]; simpl in H
  end; try discriminate;
  destruct v as [| |?|z|?|?]; try discriminate;
  vm_compute in Hf; injection Hf as <-;
  (split; [reflexivity|]); (split; [reflexivity|]);
  intros k' Hk'; unfold Store.company_obj;
  cbn [prop Store.c_handle Store.c_name Store.c_description
       Store.c_num_employees Store.c_logo_url];
  repeat match goal with
  | |- context [String.eqb ?s k'] => destruct (String.eqb_spec s k')
  end; solve [congruence | reflexivity].
Qed.

Lemma job_setter_single (k : string) (v : Value)
    (f : Store.JobRow → Store.JobRow) :
  job_field k v = true →
  Store.job_setter (column ∅ k) v = Some f →
  ∀ j, Store.j_id (f j) = Store.j_id j
       ∧ prop (Store.job_obj "companyHandle" (f j)) k = v
       ∧ ∀ k', k' ≠ k →
           prop (Store.job_obj "companyHandle" (f j)) k'
           = prop (Store.job_obj "companyHandle" j) k'.
Proof.
  intros H Hf c.
  destruct (job_field_cases k v H)
    as [[-> [s ->]]|[[-> [->|[n ->]]]|[-> [->|(s & -> & E)]]]];
    try (rewrite (job_setter_decimal s E) in Hf);
    try (vm_compute in Hf); injection Hf as <-;
  (split; [reflexivity|]); (split; [reflexivity|]);
  intros k' Hk'; unfold Store.job_obj;
  cbn [prop Store.j_id Store.j_title Store.j_salary Store.j_equity
       Store.j_company_handle];
  repeat match goal with
  | |- context [String.eqb ?s k'] => destruct (String.eqb_spec s k')
  end; solve [congruence | reflexivity].
Qed.

Lemma find_company_handle (h : string) (c : Store.CompanyRow) (st : Store.State) :
  Store.find_company h st = Some c → Store.c_handle c = h.
Proof.
  unfold Store.find_company. intros H. apply find_some in H as [_ H].
  by apply String.eqb_eq.
Qed.

Lemma find_job_id (i : Z) (j : Store.JobRow) (st : Store.State) :
  Store.find_job i st = Some j → Store.j_id j = i.
Proof.
  unfold Store.find_job. intros H. apply find_some in H as [_ H]. lia.
Qed.

(** A row-wise change that keeps the keys: a lookup finds the changed row. *)
Lemma find_map_key {A} (test : A → bool) (g : A → A) (l : list A) :
  (∀ a, test (g a) = test a) →
  List.find test (map g l) = g <$> List.find test l.
Proof.
  intros Hg. induction l as [|a l IH]; simpl; [done|].
  rewrite Hg. by destruct (test a).
Qed.

(** The UPDATE statements as the store runs them. *)
Lemma db_company_update (h : string) (data : Obj) (st : Store.State) :
  data ≠ [] →
  partial_data company_field data →
  ∃ f,
    Store.setters Store.company_setter
      (column Company.jsToSql <$> keys data) (Js.values data ++ [VStr h])
    = Some f
    ∧ Store.db
        (Company.updateSql
           (join ", " (imap (Sql.fragment Company.jsToSql) (keys data)))
           ("$" +:+ pretty (length (Js.values data) + 1)%nat))
        (Js.values data ++ [VStr h]) st
      = match Store.find_company h st with
        | None => (inr [], st)
        | Some c =>
            (inr [Store.company_obj (f c)],
             {| Store.companies :=
                  map (λ c, if String.eqb (Store.c_handle c) h then f c else c)
                      (Store.companies st);
                Store.jobs := Store.jobs st;
                Store.next_id := Store.next_id st |})
        end.
Proof.
  intros Hne Hp.
  destruct (partial_columns company_field Store.company_setter Company.jsToSql _
              company_column_cases company_allowed_inj
              ltac:(by repeat constructor) data Hp) as [Hnd Hdq].
  destruct (partial_setters company_field Store.company_setter Company.jsToSql _
              company_column_cases data [VStr h] (proj2 Hp)) as [f Hf].
  exists f. split; [exact Hf|].
  assert (length (column Company.jsToSql <$> keys data) = length (Js.values data))
    as Hlen by (unfold keys, Js.values; by rewrite !length_fmap).
  rewrite setCols_set_list, Nat.add_1_r, <- Hlen.
  rewrite (db_decoded _ (Store.CompanyUpdate (column Company.jsToSql <$> keys data))).
  2:{ apply decode_company_update; [|done]. destruct data; done. }
  unfold Store.run, Store.run_company_update.
  rewrite length_app, Hlen, Nat.add_1_r, Nat.eqb_refl. simpl negb.
  rewrite (bool_decide_eq_true_2 _ Hnd). simpl negb. cbv iota.
  rewrite Hf, update_last. simpl. by destruct (Store.find_company h st).
Qed.

Lemma db_job_update (i : Z) (data : Obj) (st : Store.State) :
  data ≠ [] →
  partial_data job_field data →
  ∃ f,
    Store.setters Store.job_setter (column ∅ <$> keys data)
      (Js.values data ++ [VNum i])
    = Some f
    ∧ Store.db
        (Job.updateSql (join ", " (imap (Sql.fragment ∅) (keys data)))
           ("$" +:+ pretty (length (Js.values data) + 1)%nat))
        (Js.values data ++ [VNum i]) st
      = match Store.find_job i st with
        | None => (inr [], st)
        | Some j =>
            (inr [Store.job_obj "companyHandle" (f j)],
             {| Store.companies := Store.companies st;
                Store.jobs :=
                  map (λ j', if Store.j_id j' =? Store.j_id j then f j' else j')
                      (Store.jobs st);
                Store.next_id := Store.next_id st |})
        end.
Proof.
  intros Hne Hp.
  destruct (partial_columns job_field Store.job_setter ∅ _
              job_column_cases job_allowed_inj
              ltac:(by repeat constructor) data Hp) as [Hnd Hdq].
  destruct (partial_setters job_field Store.job_setter ∅ _
              job_column_cases data [VNum i] (proj2 Hp)) as [f Hf].
  exists f. split; [exact Hf|].
  assert (length (column ∅ <$> keys data) = length (Js.values data))
    as Hlen by (unfold keys, Js.values; by rewrite !length_fmap).
  rewrite setCols_set_list, Nat.add_1_r, <- Hlen.
  rewrite (db_decoded _ (Store.JobUpdate (column ∅ <$> keys data))).
  2:{ apply decode_job_update; [|done]. destruct data; done. }
  unfold Store.run, Store.run_job_update.
  rewrite length_app, Hlen, Nat.add_1_r, Nat.eqb_refl. simpl negb.
  rewrite (bool_decide_eq_true_2 _ Hnd). simpl negb. cbv iota.
  rewrite Hf, update_last. simpl. by destruct (Store.find_job i st).
Qed.

Lemma call_builder (data : Obj) (M : gmap string string) :
  data ≠ [] →
  call (Sql.sqlForPartialUpdate data M)
  = Ret {| Sql.setCols := join ", " (imap (Sql.fragment M) (keys data));
           Sql.values := Js.values data |}.
Proof. intros Hd. by rewrite (sqlForPartialUpdate_nonempty M data Hd). Qed.

(** X3: a non-empty partial update of a company of the store returns the
    row after the update: every field of the data has the value given, every
    other field, the handle among them, is as before.  The other companies
    and the jobs are untouched, and [get] then returns the same record. *)
Theorem company_update_then_get (st : Store.State) (h : string)
    (c : Store.CompanyRow) (data : Obj) :
  Store.find_company h st = Some c →
  data ≠ [] →
  partial_data company_field data →
  let upd := exec Store.db (Company.update h data) st in
  ∃ company : Obj,
    result upd = inr (VObj company)
    ∧ (∀ k v, (k, v) ∈ data → prop company k = v)
    ∧ (∀ k, k ∉ keys data → prop company k = prop (Store.company_obj c) k)
    ∧ result (exec Store.db (Company.get h) (store upd)) = result upd
    ∧ (∀ h', h' ≠ h →
         Store.find_company h' (store upd) = Store.find_company h' st)
    ∧ Store.jobs (store upd) = Store.jobs st.
Proof.
  intros Hc Hne Hp upd. subst upd.
  destruct (db_company_update h data st Hne Hp) as (f & Hf & Hdb).
  rewrite Hc in Hdb.
  pose proof (setters_effect company_field Store.company_setter Company.jsToSql
                Store.company_obj Store.c_handle company_setter_single
                data [VStr h] (proj1 Hp) (proj2 Hp) f Hf) as Heff.
  assert (exec Store.db (Company.update h data) st
          = {| result := inr (VObj (Store.company_obj (f c)));
               store :=
                 {| Store.companies :=
                      map (λ c, if String.eqb (Store.c_handle c) h then f c else c)
                          (Store.companies st);
                    Store.jobs := Store.jobs st;
                    Store.next_id := Store.next_id st |};
               issued :=
                 [{| text :=
                       Company.updateSql
                         (join ", " (imap (Sql.fragment Company.jsToSql) (keys data)))
                         ("$" +:+ pretty (length (Js.values data) + 1)%nat);
                     params := Js.values data ++ [VStr h] |}] |}) as E.
  { unfold exec, Company.update. rewrite (call_builder _ _ Hne).
    cbn [mbind Prog_bind bind]. rewrite exec_from_query.
    cbn [Sql.setCols Sql.values]. by rewrite Hdb. }
  rewrite E. cbn [result store].
  assert (∀ h', Store.find_company h'
                  {| Store.companies :=
                       map (λ c, if String.eqb (Store.c_handle c) h then f c else c)
                           (Store.companies st);
                     Store.jobs := Store.jobs st;
                     Store.next_id := Store.next_id st |}
                = (λ c, if String.eqb (Store.c_handle c) h then f c else c)
                    <$> Store.find_company h' st) as Hfind.
  { intros h'. unfold Store.find_company. cbn [Store.companies].
    apply find_map_key. intros a.
    destruct (String.eqb (Store.c_handle a) h); [|done].
    by rewrite (proj1 (Heff a)). }
  exists (Store.company_obj (f c)).
  destruct (Heff c) as (_ & H2 & H3).
  split; [done|]. split; [exact H2|]. split; [exact H3|]. split; [|split; [|done]].
  - assert (Store.find_company h
              {| Store.companies :=
                   map (λ c, if String.eqb (Store.c_handle c) h then f c else c)
                       (Store.companies st);
                 Store.jobs := Store.jobs st;
                 Store.next_id := Store.next_id st |} = Some (f c)) as Hnew.
    { rewrite Hfind, Hc. simpl.
      by rewrite (find_company_handle h c st Hc), String.eqb_refl. }
    by rewrite (company_get_found _ h _ Hnew).
  - intros h' Hh'. rewrite Hfind.
    destruct (Store.find_company h' st) as [c'|] eqn:Hc'; [|done].
    simpl. rewrite (find_company_handle h' c' st Hc').
    by destruct (String.eqb_spec h' h).
Qed.

Lemma company_update_then_get_witness :
  let data : Obj := [("numEmployees", VNum 10); ("logoUrl", VNull)] in
  Store.find_company "c1" Fixture.st = Some Fixture.c1
  ∧ partial_data company_field data
  ∧ result (exec Store.db (Company.update "c1" data) Fixture.st)
    = inr (VObj [("handle", VStr "c1"); ("name", VStr "C1");
                 ("description", VStr "Desc1"); ("numEmployees", VNum 10);
                 ("logoUrl", VNull)])
  ∧ ∃ company : Obj,
      result (exec Store.db (Company.update "c1" data) Fixture.st)
      = inr (VObj company)
      ∧ prop company "numEmployees" = VNum 10
      ∧ prop company "name" = VStr "C1".
Proof.
  intros data.
  assert (partial_data company_field data) as Hp.
  { split; [|by repeat constructor].
    apply (bool_decide_unpack _). by vm_compute. }
  split; [reflexivity|]. split; [exact Hp|]. split; [by vm_compute|].
  destruct (company_update_then_get Fixture.st "c1" Fixture.c1 data
              eq_refl ltac:(discriminate) Hp) as (company & H1 & H2 & H3 & _).
  exists company. split; [exact H1|]. split.
  - apply H2. apply list_elem_of_here.
  - rewrite H3; [reflexivity|]. apply (bool_decide_unpack _). by vm_compute.
Defined.

(** X4: a non-empty partial update of a job of the store (a text for the
    title, a count or null for the salary, for the equity null or a decimal
    text in the form a numeric has) returns the row after the update: every
    field of the data has the value given; every other field is as before,
    the id and the company handle among them.  The other jobs and the
    companies are untouched. *)
Theorem job_update_fields (st : Store.State) (i : Z) (j : Store.JobRow)
    (data : Obj) :
  Store.find_job i st = Some j →
  data ≠ [] →
  partial_data job_field data →
  let upd := exec Store.db (Job.update i data) st in
  ∃ (job : Obj) (j' : Store.JobRow),
    result upd = inr (VObj job)
    ∧ job = Store.job_obj "companyHandle" j'
    ∧ (∀ k v, (k, v) ∈ data → prop job k = v)
    ∧ (∀ k, k ∉ keys data →
         prop job k = prop (Store.job_obj "companyHandle" j) k)
    ∧ Store.find_job i (store upd) = Some j'
    ∧ (∀ i', i' ≠ i → Store.find_job i' (store upd) = Store.find_job i' st)
    ∧ Store.companies (store upd) = Store.companies st.
Proof.
  intros Hj Hne Hp upd. subst upd.
  destruct (db_job_update i data st Hne Hp) as (f & Hf & Hdb).
  rewrite Hj in Hdb.
  pose proof (setters_effect job_field Store.job_setter ∅
                (Store.job_obj "companyHandle") Store.j_id job_setter_single
                data [VNum i] (proj1 Hp) (proj2 Hp) f Hf) as Heff.
  pose proof (find_job_id i j st Hj) as Hid.
  assert (exec Store.db (Job.update i data) st
          = {| result := inr (VObj (Store.job_obj "companyHandle" (f j)));
               store :=
                 {| Store.companies := Store.companies st;
                    Store.jobs :=
                      map (λ j', if Store.j_id j' =? Store.j_id j then f j' else j')
                          (Store.jobs st);
                    Store.next_id := Store.next_id st |};
               issued :=
                 [{| text :=
                       Job.updateSql
                         (join ", " (imap (Sql.fragment ∅) (keys data)))
                         ("$" +:+ pretty (length (Js.values data) + 1)%nat);
                     params := Js.values data ++ [VNum i] |}] |}) as E.
  { unfold exec, Job.update. rewrite (call_builder _ _ Hne).
    cbn [mbind Prog_bind bind]. rewrite exec_from_query.
    cbn [Sql.setCols Sql.values]. by rewrite Hdb. }
  rewrite E. cbn [result store].
  assert (∀ i', Store.find_job i'
                  {| Store.companies := Store.companies st;
                     Store.jobs :=
                       map (λ j', if Store.j_id j' =? Store.j_id j then f j' else j')
                           (Store.jobs st);
                     Store.next_id := Store.next_id st |}
                = (λ j', if Store.j_id j' =? Store.j_id j then f j' else j')
                    <$> Store.find_job i' st) as Hfind.
  { intros i'. unfold Store.find_job. cbn [Store.jobs].
    apply find_map_key. intros a.
    destruct (Store.j_id a =? Store.j_id j); [|done].
    by rewrite (proj1 (Heff a)). }
  exists (Store.job_obj "companyHandle" (f j)), (f j).
  destruct (Heff j) as (_ & H2 & H3).
  split; [done|]. split; [done|]. split; [exact H2|]. split; [exact H3|].
  split; [|split; [|done]].
  - rewrite Hfind, Hj. simpl. by rewrite Z.eqb_refl.
  - intros i' Hi'. rewrite Hfind.
    destruct (Store.find_job i' st) as [j0|] eqn:Hj0; [|done].
    simpl. rewrite (find_job_id i' j0 st Hj0), Hid.
    by destruct (Z.eqb_spec i' i).
Qed.

Lemma job_update_fields_witness :
  let data : Obj := [("title", VStr "new title"); ("salary", VNum 100)] in
  Store.find_job 1 Fixture.st = Some Fixture.j1
  ∧ partial_data job_field data
  ∧ ∃ job : Obj,
      result (exec Store.db (Job.update 1 data) Fixture.st) = inr (VObj job)
      ∧ prop job "title" = VStr "new title"
      ∧ prop job "equity" = VStr "0.1"
      ∧ prop job "companyHandle" = VStr "c1".
Proof.
  intros data.
  assert (partial_data job_field data) as Hp.
  { split; [|by repeat constructor].
    apply (bool_decide_unpack _). by vm_compute. }
  split; [reflexivity|]. split; [exact Hp|].
  destruct (job_update_fields Fixture.st 1 Fixture.j1 data
              eq_refl ltac:(discriminate) Hp)
    as (job & j' & H1 & _ & H2 & H3 & _).
  exists job. split; [exact H1|]. split; [|split].
  - apply H2. apply list_elem_of_here.
  - rewrite H3; [reflexivity|]. apply (bool_decide_unpack _). by vm_compute.
  - rewrite H3; [reflexivity|]. apply (bool_decide_unpack _). by vm_compute.
Defined.

(** ** Removing *)

Lemma find_company_filter (h h' : string) (cs : list Store.CompanyRow) :
  List.find (λ c, String.eqb (Store.c_handle c) h')
    (filter (λ c, Store.c_handle c ≠ h) cs)
  = if decide (h' = h) then None
    else List.find (λ c, String.eqb (Store.c_handle c) h') cs.
Proof.
  induction cs as [|c cs IH]; [by destruct (decide (h' = h))|].
  rewrite filter_cons. simpl.
  destruct (decide (Store.c_handle c ≠ h)) as [Hne|Heq%dec_stable]; simpl.
  - rewrite IH. destruct (String.eqb_spec (Store.c_handle c) h'); [|done].
    destruct (decide (h' = h)); [congruence|done].
  - rewrite IH. destruct (decide (h' = h)) as [->|Hh']; [done|].
    destruct (String.eqb_spec (Store.c_handle c) h'); [congruence|done].
Qed.

Lemma find_job_filter (i i' : Z) (js : list Store.JobRow) :
  List.find (λ j, Store.j_id j =? i') (filter (λ j, Store.j_id j ≠ i) js)
  = if decide (i' = i) then None
    else List.find (λ j, Store.j_id j =? i') js.
Proof.
  induction js as [|j js IH]; [by destruct (decide (i' = i))|].
  rewrite filter_cons. simpl.
  destruct (decide (Store.j_id j ≠ i)) as [Hne|Heq%dec_stable]; simpl.
  - rewrite IH. destruct (Z.eqb_spec (Store.j_id j) i'); [|done].
    destruct (decide (i' = i)); [congruence|done].
  - rewrite IH. destruct (decide (i' = i)) as [->|Hi']; [done|].
    destruct (Z.eqb_spec (Store.j_id j) i'); [congruence|done].
Qed.

Lemma db_company_delete_found (h : string) (c : Store.CompanyRow)
    (st : Store.State) :
  Store.find_company h st = Some c →
  Store.db Company.deleteSql [VStr h] st
  = (inr [[("handle", VStr h)]],
     {| Store.companies := filter (λ c, Store.c_handle c ≠ h) (Store.companies st);
        Store.jobs := filter (λ j, Store.j_company_handle j ≠ h) (Store.jobs st);
        Store.next_id := Store.next_id st |}).
Proof.
  intros Hc. rewrite (db_decoded _ Store.CompanyDelete) by (by vm_compute).
  simpl. rewrite Hc. simpl. by rewrite (find_company_handle h c st Hc).
Qed.

Lemma db_job_delete_found (i : Z) (j : Store.JobRow) (st : Store.State) :
  Store.find_job i st = Some j →
  Store.db Job.deleteSql [VNum i] st
  = (inr [[("id", VNum i)]],
     {| Store.companies := Store.companies st;
        Store.jobs := filter (λ j, Store.j_id j ≠ i) (Store.jobs st);
        Store.next_id := Store.next_id st |}).
Proof.
  intros Hj. rewrite (db_decoded _ Store.JobDelete) by (by vm_compute).
  simpl. rewrite Hj. by rewrite (find_job_id i j st Hj).
Qed.

(** X5: removing a company of the store returns [undefined] after the one
    DELETE; the company is gone and every other company is as it was; a [get]
    or a second [remove] of the handle then fails with the not-found error
    and changes nothing. *)
Theorem company_remove_then (st : Store.State) (h : string)
    (c : Store.CompanyRow) :
  Store.find_company h st = Some c →
  let gone := exec Store.db (Company.remove h) st in
  result gone = inr VUndefined
  ∧ issued gone = [{| text := Company.deleteSql; params := [VStr h] |}]
  ∧ Store.find_company h (store gone) = None
  ∧ (∀ h', h' ≠ h →
       Store.find_company h' (store gone) = Store.find_company h' st)
  ∧ failed_unchanged (store gone)
      (exec Store.db (Company.get h) (store gone))
      (NotFoundError ("No company: " +:+ h))
  ∧ failed_unchanged (store gone)
      (exec Store.db (Company.remove h) (store gone))
      (NotFoundError ("No company: " +:+ h)).
Proof.
  intros Hc gone.
  assert (gone
          = {| result := inr VUndefined;
               store :=
                 {| Store.companies :=
                      filter (λ c, Store.c_handle c ≠ h) (Store.companies st);
                    Store.jobs :=
                      filter (λ j, Store.j_company_handle j ≠ h) (Store.jobs st);
                    Store.next_id := Store.next_id st |};
               issued := [{| text := Company.deleteSql; params := [VStr h] |}] |})
    as E.
  { unfold gone, exec, Company.remove.
    by rewrite exec_from_query, (db_company_delete_found h c st Hc). }
  rewrite E. cbn [result store issued].
  assert (∀ h', Store.find_company h'
                  {| Store.companies :=
                       filter (λ c, Store.c_handle c ≠ h) (Store.companies st);
                     Store.jobs :=
                       filter (λ j, Store.j_company_handle j ≠ h) (Store.jobs st);
                     Store.next_id := Store.next_id st |}
                = if decide (h' = h) then None else Store.find_company h' st)
    as Hfind.
  { intros h'. apply find_company_filter. }
  assert (Store.find_company h
            {| Store.companies :=
                 filter (λ c, Store.c_handle c ≠ h) (Store.companies st);
               Store.jobs :=
                 filter (λ j, Store.j_company_handle j ≠ h) (Store.jobs st);
               Store.next_id := Store.next_id st |} = None) as Hgone.
  { rewrite Hfind. by destruct (decide (h = h)). }
  split; [done|]. split; [done|]. split; [exact Hgone|]. split; [|split].
  - intros h' Hh'. rewrite Hfind. by destruct (decide (h' = h)).
  - unfold failed_unchanged, exec, Company.get.
    by rewrite exec_from_query, db_company_select, Hgone.
  - unfold failed_unchanged, exec, Company.remove.
    by rewrite exec_from_query, (db_company_delete_none h _ Hgone).
Qed.

Lemma company_remove_then_witness :
  Store.find_company "c2" Fixture.st = Some Fixture.c2
  ∧ result (exec Store.db (Company.remove "c2") Fixture.st) = inr VUndefined
  ∧ Store.find_company "c2"
      (store (exec Store.db (Company.remove "c2") Fixture.st)) = None.
Proof.
  split; [reflexivity|].
  destruct (company_remove_then Fixture.st "c2" Fixture.c2 eq_refl)
    as (H1 & _ & H3 & _).
  split; [exact H1 | exact H3].
Defined.

(** X6: removing a job of the store returns [undefined] after the one
    DELETE; the job is gone, every other job and every company is as it
    was; a [get] or a second [remove] of the id then fails with the
    not-found error and changes nothing. *)
Theorem job_remove_then (st : Store.State) (i : Z) (j : Store.JobRow) :
  Store.find_job i st = Some j →
  let gone := exec Store.db (Job.remove i) st in
  result gone = inr VUndefined
  ∧ issued gone = [{| text := Job.deleteSql; params := [VNum i] |}]
  ∧ Store.find_job i (store gone) = None
  ∧ (∀ i', i' ≠ i → Store.find_job i' (store gone) = Store.find_job i' st)
  ∧ Store.companies (store gone) = Store.companies st
  ∧ failed_unchanged (store gone)
      (exec Store.db (Job.get i) (store gone))
      (NotFoundError ("That job does not exist: job id " +:+ pretty i))
  ∧ failed_unchanged (store gone)
      (exec Store.db (Job.remove i) (store gone))
      (NotFoundError ("That job does not exist: job id " +:+ pretty i)).
Proof.
  intros Hj gone.
  assert (gone
          = {| result := inr VUndefined;
               store :=
                 {| Store.companies := Store.companies st;
                    Store.jobs := filter (λ j, Store.j_id j ≠ i) (Store.jobs st);
                    Store.next_id := Store.next_id st |};
               issued := [{| text := Job.deleteSql; params := [VNum i] |}] |})
    as E.
  { unfold gone, exec, Job.remove.
    by rewrite exec_from_query, (db_job_delete_found i j st Hj). }
  rewrite E. cbn [result store issued].
  assert (∀ i', Store.find_job i'
                  {| Store.companies := Store.companies st;
                     Store.jobs := filter (λ j, Store.j_id j ≠ i) (Store.jobs st);
                     Store.next_id := Store.next_id st |}
                = if decide (i' = i) then None else Store.find_job i' st)
    as Hfind.
  { intros i'. apply find_job_filter. }
  assert (Store.find_job i
            {| Store.companies := Store.companies st;
               Store.jobs := filter (λ j, Store.j_id j ≠ i) (Store.jobs st);
               Store.next_id := Store.next_id st |} = None) as Hgone.
  { rewrite Hfind. by destruct (decide (i = i)). }
  split; [done|]. split; [done|]. split; [exact Hgone|].
  split; [|split; [done|split]].
  - intros i' Hi'. rewrite Hfind. by destruct (decide (i' = i)).
  - unfold failed_unchanged, exec, Job.get.
    by rewrite exec_from_query, db_job_select, Hgone.
  - unfold failed_unchanged, exec, Job.remove.
    by rewrite exec_from_query, (db_job_delete_none i _ Hgone).
Qed.

Lemma job_remove_then_witness :
  Store.find_job 2 Fixture.st = Some Fixture.j2
  ∧ result (exec Store.db (Job.remove 2) Fixture.st) = inr VUndefined
  ∧ Store.find_job 2 (store (exec Store.db (Job.remove 2) Fixture.st)) = None.
Proof.
  split; [reflexivity|].
  destruct (job_remove_then Fixture.st 2 Fixture.j2 eq_refl)
    as (H1 & _ & H3 & _).
  split; [exact H1 | exact H3].
Defined.

(** ** Jobs: creating, and reading back *)

Lemma db_job_insert (st : Store.State) (data : Obj) (h : string)
    (c : Store.CompanyRow) :
  Store.find_company h st = Some c →
  job_data data →
  Store.db Job.insertSql
    [prop data "title"; prop data "salary"; prop data "equity"; VStr h] st
  = (inr [Store.job_obj "companyhandle" (job_row (Store.next_id st) h data)],
     add_job (job_row (Store.next_id st) h data) st).
Proof.
  intros Hc (Ht & Hs & He).
  rewrite (db_decoded _ (Store.JobInsert "companyhandle")) by (by vm_compute).
  unfold Store.run, Store.run_job_insert.
  rewrite (store_optional_text _ Ht), (store_optional_count _ Hs),
    (store_optional_decimal _ He).
  simpl. by rewrite Hc.
Qed.

Lemma job_create_ok (st : Store.State) (data : Obj) (h : string)
    (c : Store.CompanyRow) :
  prop data "companyHandle" = VStr h →
  Store.find_company h st = Some c →
  job_data data →
  exec Store.db (Job.create data) st
  = {| result :=
         inr (VObj (Store.job_obj "companyhandle"
                      (job_row (Store.next_id st) h data)));
       store := add_job (job_row (Store.next_id st) h data) st;
       issued :=
         [{| text := Job.insertSql;
             params := [prop data "title"; prop data "salary";
                        prop data "equity"; VStr h] |}] |}.
Proof.
  intros Hh Hc Hd. unfold exec, Job.create.
  by rewrite exec_from_query, Hh, (db_job_insert st data h c Hc Hd).
Qed.

Lemma job_get_found (st : Store.State) (i : Z) (j : Store.JobRow)
    (c : Store.CompanyRow) :
  Store.find_job i st = Some j →
  Store.find_company (Store.j_company_handle j) st = Some c →
  result (exec Store.db (Job.get i) st)
  = inr (VObj [("id", VNum (Store.j_id j)); ("title", Store.j_title j);
               ("salary", Store.j_salary j); ("equity", Store.j_equity j);
               ("companyHandle", VObj (Store.company_obj c))]).
Proof.
  intros Hj Hc. unfold exec, Job.get.
  rewrite exec_from_query, db_job_select, Hj.
  cbn [first_row truthy negb]. cbv iota.
  rewrite exec_from_query.
  change (Js.get (VObj (Store.job_obj "companyHandle" j)) "companyHandle")
    with (VStr (Store.j_company_handle j)).
  change Job.companySql with Company.selectSql.
  rewrite db_company_select, Hc. reflexivity.
Qed.

(** X7: a job of a company of the store (its equity, when given, a decimal
    text in the form a numeric has) is created by one INSERT; it gets the next
    id of the sequence, and an absent field is null.  [Job.get] of that id
    then returns the same title, salary and equity, with the record of the
    company under [companyHandle]. *)
Theorem job_create_then_get (st : Store.State) (data : Obj) (h : string)
    (c : Store.CompanyRow) :
  prop data "companyHandle" = VStr h →
  Store.find_company h st = Some c →
  job_data data →
  Store.find_job (Store.next_id st) st = None →
  let made := exec Store.db (Job.create data) st in
  (∃ created : Obj,
     result made = inr (VObj created)
     ∧ prop created "id" = VNum (Store.next_id st)
     ∧ prop created "title" = nullify (prop data "title")
     ∧ prop created "salary" = nullify (prop data "salary")
     ∧ prop created "equity" = nullify (prop data "equity"))
  ∧ text <$> issued made = [Job.insertSql]
  ∧ result (exec Store.db (Job.get (Store.next_id st)) (store made))
    = inr (VObj [("id", VNum (Store.next_id st));
                 ("title", nullify (prop data "title"));
                 ("salary", nullify (prop data "salary"));
                 ("equity", nullify (prop data "equity"));
                 ("companyHandle", VObj (Store.company_obj c))]).
Proof.
  intros Hh Hc Hd Hfresh made. subst made.
  rewrite (job_create_ok st data h c Hh Hc Hd). cbn [result store issued].
  split; [|split; [reflexivity|]].
  - eexists. split; [reflexivity|]. by repeat split.
  - pose proof (find_job_add_fresh (job_row (Store.next_id st) h data) st Hfresh)
      as Hnew.
    apply (job_get_found _ _ _ c Hnew). exact Hc.
Qed.

Lemma job_create_then_get_witness :
  let data : Obj :=
    [("title", VStr "testing"); ("salary", VNum 123); ("equity", VStr "0.1");
     ("companyHandle", VStr "c1")] in
  Store.find_company "c1" Fixture.st = Some Fixture.c1
  ∧ job_data data
  ∧ Store.find_job 4 Fixture.st = None
  ∧ result (exec Store.db (Job.get 4)
              (store (exec Store.db (Job.create data) Fixture.st)))
    = inr (VObj [("id", VNum 4); ("title", VStr "testing");
                 ("salary", VNum 123); ("equity", VStr "0.1");
                 ("companyHandle", VObj (Store.company_obj Fixture.c1))]).
Proof.
  intros data.
  assert (job_data data) as Hd by (by repeat split).
  split; [reflexivity|]. split; [exact Hd|]. split; [reflexivity|].
  exact (proj2 (proj2 (job_create_then_get Fixture.st data "c1" Fixture.c1
                         eq_refl eq_refl Hd eq_refl))).
Defined.

(** X8: the record [Job.create] returns has the company handle under the
    key [companyhandle]: the store names the column as the RETURNING clause
    of the statement does, and there the alias is not quoted, so that it is
    folded to lower case.  The [companyHandle] of the record is [undefined];
    [Job.get] of the same job, whose statement quotes the alias, has the
    handle's company under [companyHandle]. *)
Theorem job_create_handle_key (st : Store.State) (data : Obj) (h : string)
    (c : Store.CompanyRow) :
  prop data "companyHandle" = VStr h →
  Store.find_company h st = Some c →
  job_data data →
  Store.find_job (Store.next_id st) st = None →
  let made := exec Store.db (Job.create data) st in
  ∃ created got : Value,
    result made = inr created
    ∧ Js.get created "companyhandle" = VStr h
    ∧ Js.get created "companyHandle" = VUndefined
    ∧ result (exec Store.db (Job.get (Store.next_id st)) (store made)) = inr got
    ∧ Js.get got "companyHandle" = VObj (Store.company_obj c)
    ∧ Js.get got "companyhandle" = VUndefined.
Proof.
  intros Hh Hc Hd Hfresh made. subst made.
  rewrite (job_create_ok st data h c Hh Hc Hd). cbn [result store].
  pose proof (find_job_add_fresh (job_row (Store.next_id st) h data) st Hfresh)
    as Hnew.
  pose proof (job_get_found _ _ _ c Hnew Hc) as Hget.
  cbn [job_row Store.j_id] in Hget.
  do 2 eexists. split; [reflexivity|]. split; [done|]. split; [done|].
  split; [exact Hget|]. by split.
Qed.

Lemma job_create_handle_key_witness :
  let data : Obj :=
    [("title", VStr "testJob"); ("salary", VNum 12345); ("equity", VStr "0.1");
     ("companyHandle", VStr "c2")] in
  Store.find_company "c2" Fixture.st = Some Fixture.c2
  ∧ job_data data
  ∧ Store.find_job 4 Fixture.st = None
  ∧ ∃ created : Value,
      result (exec Store.db (Job.create data) Fixture.st) = inr created
      ∧ Js.get created "companyhandle" = VStr "c2"
      ∧ Js.get created "companyHandle" = VUndefined.
Proof.
  intros data.
  assert (job_data data) as Hd by (by repeat split).
  split; [reflexivity|]. split; [exact Hd|]. split; [reflexivity|].
  destruct (job_create_handle_key Fixture.st data "c2" Fixture.c2
              eq_refl eq_refl Hd eq_refl)
    as (created & got & H1 & H2 & H3 & _).
  exists created. split; [exact H1|]. split; [exact H2 | exact H3].
Defined.

(** The store names an output column as the statement does: with the alias
    quoted, the same INSERT returns the handle under [companyHandle]. *)
Example job_insert_alias_read :
  Store.decode Job.insertSql = Some (Store.JobInsert "companyhandle")
  ∧ Store.decode
      (Store.job_insert_head +:+ dq +:+ "companyHandle" +:+ dq)
    = Some (Store.JobInsert "companyHandle")
  ∧ Store.decode Job.selectSql = Some (Store.JobSelect "companyHandle").
Proof. split; [|split]; by vm_compute. Qed.

(** ** [Job.get] when the company is gone *)

Lemma prop_set_prop_eq (o : Obj) (k : string) (v : Value) :
  prop (set_prop o k v) k = v.
Proof.
  induction o as [|[k' v'] o IH]; simpl.
  - by rewrite String.eqb_refl.
  - destruct (String.eqb k' k) eqn:E; simpl; by rewrite E.
Qed.

Lemma prop_set_prop_ne (o : Obj) (k k' : string) (v : Value) :
  k' ≠ k → prop (set_prop o k v) k' = prop o k'.
Proof.
  intros Hne. induction o as [|[k0 v0] o IH]; simpl.
  - by destruct (String.eqb_spec k k'); [congruence|].
  - destruct (String.eqb_spec k0 k) as [->|]; simpl.
    + by destruct (String.eqb_spec k k'); [congruence|].
    + by rewrite IH.
Qed.

Lemma prop_delete_prop_ne (o : Obj) (k k' : string) :
  k' ≠ k → prop (delete_prop o k) k' = prop o k'.
Proof.
  intros Hne. unfold delete_prop.
  induction o as [|[k0 v0] o IH]; [done|].
  rewrite filter_cons. simpl.
  destruct (String.eqb_spec k0 k) as [->|]; simpl.
  - destruct (String.eqb_spec k k'); [congruence|]. 
    destruct (decide (false = true)); [done|]. exact IH.
  - destruct (decide (true = true)); [|done]. simpl. by rewrite IH.
Qed.

(** X9: [Job.get] does not look at the result of its second statement: when
    the store returns the job but no row for its company, the operation
    still succeeds, with [companyHandle] present and [undefined] and every
    other field of the job row as the store gave it.  No not-found error is
    raised for the missing company. *)
Theorem job_get_company_missing {S : Type} (db : Handler S) (st st1 st2 : S)
    (i : Z) (job : Obj) (more : list Obj) :
  db Job.selectSql [VNum i] st = (inr (job :: more), st1) →
  db Job.companySql [prop job "companyHandle"] st1 = (inr [], st2) →
  ∃ o : Obj,
    result (exec db (Job.get i) st) = inr (VObj o)
    ∧ prop o "companyHandle" = VUndefined
    ∧ ("companyHandle", VUndefined) ∈ o
    ∧ ∀ k, k ≠ "companyHandle" → prop o k = prop job k.
Proof.
  intros H1 H2.
  exists (set_prop (delete_prop job "companyHandle") "companyHandle" VUndefined).
  split; [|split; [|split]].
  - unfold exec, Job.get. rewrite exec_from_query, H1.
    cbn [first_row truthy negb]. cbv iota.
    rewrite exec_from_query. cbn [Js.get]. by rewrite H2.
  - apply prop_set_prop_eq.
  - generalize (delete_prop job "companyHandle"). intros o.
    induction o as [|[k v] o IH]; simpl; [apply list_elem_of_here|].
    destruct (String.eqb_spec k "companyHandle") as [->|].
    + apply list_elem_of_here.
    + by apply list_elem_of_further.
  - intros k Hk. by rewrite prop_set_prop_ne, prop_delete_prop_ne.
Qed.

Lemma job_get_company_missing_witness :
  Store.db Job.selectSql [VNum 1] orphaned
  = (inr [Store.job_obj "companyHandle" Fixture.j1], orphaned)
  ∧ Store.db Job.companySql [VStr "c1"] orphaned = (inr [], orphaned)
  ∧ ∃ o : Obj,
      result (exec Store.db (Job.get 1) orphaned) = inr (VObj o)
      ∧ prop o "companyHandle" = VUndefined
      ∧ prop o "title" = VStr "J1".
Proof.
  assert (Store.db Job.selectSql [VNum 1] orphaned
          = (inr [Store.job_obj "companyHandle" Fixture.j1], orphaned)) as H1
    by (by vm_compute).
  assert (Store.db Job.companySql [VStr "c1"] orphaned = (inr [], orphaned))
    as H2 by (by vm_compute).
  split; [exact H1|]. split; [exact H2|].
  destruct (job_get_company_missing Store.db orphaned orphaned orphaned 1
              (Store.job_obj "companyHandle" Fixture.j1) [] H1 H2)
    as (o & E & Hc & _ & Hrest).
  exists o. split; [exact E|]. split; [exact Hc|].
  rewrite Hrest; [reflexivity | discriminate].
Defined.

(** ** The statements of [update] *)

Lemma fragments_from_keys (M : gmap string string) (d d' : Obj) :
  keys d = keys d' →
  join ", " (imap (Sql.fragment M) (keys d))
  = join ", " (imap (Sql.fragment M) (keys d'))
  ∧ length (Js.values d) = length (Js.values d').
Proof.
  intros E. rewrite E. split; [done|].
  unfold Js.values. rewrite !length_fmap.
  apply (f_equal length) in E. unfold keys in E. by rewrite !length_fmap in E.
Qed.

(** X10: the text of an UPDATE comes from the keys of the data alone: two
    updates whose data have the same keys issue the same text, whatever the
    values and whichever row they aim at.  The values, followed by the
    handle or the id, are the positional parameters. *)
Theorem update_text_from_keys (h h' : string) (i i' : Z) (d d' : Obj) :
  d ≠ [] →
  keys d = keys d' →
  (∃ t : string,
     first_statement (Company.update h d)
     = Some {| text := t; params := Js.values d ++ [VStr h] |}
     ∧ first_statement (Company.update h' d')
       = Some {| text := t; params := Js.values d' ++ [VStr h'] |})
  ∧ (∃ t : string,
       first_statement (Job.update i d)
       = Some {| text := t; params := Js.values d ++ [VNum i] |}
       ∧ first_statement (Job.update i' d')
         = Some {| text := t; params := Js.values d' ++ [VNum i'] |}).
Proof.
  intros Hne Hk.
  assert (d' ≠ []) as Hne'.
  { intros ->. destruct d; [done|discriminate]. }
  split.
  - destruct (fragments_from_keys Company.jsToSql d d' Hk) as [Ef El].
    unfold Company.update.
    rewrite (call_builder d _ Hne), (call_builder d' _ Hne').
    cbn [mbind Prog_bind bind query first_statement Sql.setCols Sql.values].
    eexists. split; [reflexivity|]. by rewrite Ef, El.
  - destruct (fragments_from_keys ∅ d d' Hk) as [Ef El].
    unfold Job.update.
    rewrite (call_builder d _ Hne), (call_builder d' _ Hne').
    cbn [mbind Prog_bind bind query first_statement Sql.setCols Sql.values].
    eexists. split; [reflexivity|]. by rewrite Ef, El.
Qed.

Lemma update_text_from_keys_witness :
  let d : Obj := [("name", VStr "x"); ("logoUrl", VNull)] in
  let d' : Obj := [("name", VStr "x' OR 'a'='a");
                   ("logoUrl", VStr "y")] in
  keys d = keys d'
  ∧ ∃ t : string,
      first_statement (Company.update "c1" d)
      = Some {| text := t; params := [VStr "x"; VNull; VStr "c1"] |}
      ∧ first_statement (Company.update "c2" d')
        = Some {| text := t;
                  params := [VStr "x' OR 'a'='a";
                             VStr "y"; VStr "c2"] |}.
Proof.
  intros d d'. split; [reflexivity|].
  exact (proj1 (update_text_from_keys "c1" "c2" 0 0 d d'
                  ltac:(discriminate) eq_refl)).
Defined.

(** ** Listings on the reference store *)

Lemma int_ge_spec (column : Value) (n : Z) :
  Store.int_ge column (VNum n) = true ↔ ∃ x, column = VNum x ∧ n ≤ x.
Proof.
  destruct column; simpl; try (split; [done|by intros (? & [=] & _)]).
  rewrite Z.leb_le. split; [eauto|]. by intros (? & [= <-] & ?).
Qed.

Lemma int_le_spec (column : Value) (n : Z) :
  Store.int_le column (VNum n) = true ↔ ∃ x, column = VNum x ∧ x ≤ n.
Proof.
  destruct column; simpl; try (split; [done|by intros (? & [=] & _)]).
  rewrite Z.leb_le. split; [eauto|]. by intros (? & [= <-] & ?).
Qed.

Lemma text_ilike_spec (column : Value) (s : string) :
  Store.text_ilike column (wildcards s) = true
  ↔ ∃ t, column = VStr t ∧ Store.ilike ("%" +:+ s +:+ "%") t = true.
Proof.
  unfold Store.text_ilike, wildcards. simpl.
  destruct column; try (split; [done|by intros (? & [=] & _)]).
  split; [eauto|]. by intros (? & [= <-] & ?).
Qed.

Lemma company_test_spec (f : CompanyFilter) (c : Store.CompanyRow) :
  company_test f c = true ↔ company_matches f c.
Proof.
  unfold company_test, company_matches, nonempty_name.
  rewrite !andb_true_iff.
  destruct (minEmployees f) as [lo|], (maxEmployees f) as [hi|],
    (name f) as [s|];
    try destruct (decide (s = EmptyString)) as [->|Hs];
    rewrite ?int_ge_spec, ?int_le_spec, ?text_ilike_spec;
    split;
    try (intros [[H1 H2] H3]; repeat split; intros ? [=]; subst; try done);
    try (intros (H1 & H2 & H3); repeat split; eauto).
Qed.

Lemma job_test_spec (f : JobFilter) (r : Store.Joined) :
  job_test f r = true ↔ job_matches f r.1.
Proof.
  unfold job_test, job_matches. rewrite !andb_true_iff.
  destruct (decide (hasEquity f = Some true)) as [He|He],
    (title f) as [s|], (minSalary f) as [n|];
    rewrite ?int_ge_spec, ?text_ilike_spec;
    split;
    try (intros [[H1 H2] H3]; repeat split; try done; intros ? [=]; by subst);
    try (intros (H1 & H2 & H3); repeat split; eauto).
Qed.

Lemma db_company_list (f : CompanyFilter) (st : Store.State) :
  Store.db (spec_listing Company.mainQuery " ORDER BY name" (spec_company_preds f))
    (spec_values (spec_company_preds f)) st
  = (inr (Store.company_obj
            <$> Store.order_by Store.c_name
                  (List.filter (company_test f) (Store.companies st))), st).
Proof.
  unfold spec_company_preds, company_test.
  destruct (minEmployees f), (maxEmployees f), (nonempty_name f);
    (erewrite db_decoded by (by vm_compute)); simpl;
    unfold Store.run_company_list; simpl;
    do 4 f_equal; apply filter_ext; intros c;
    rewrite ?andb_true_r, ?andb_assoc; reflexivity.
Qed.

Lemma db_job_list_rows (f : JobFilter) (st : Store.State) :
  Store.db (spec_listing Job.mainQuery " ORDER BY title" (spec_job_preds f))
    (spec_values (spec_job_preds f)) st
  = (inr (Store.joined_obj
            <$> Store.order_by (λ r : Store.Joined, Store.j_title r.1)
                  (List.filter (job_test f) (Store.joined st))), st).
Proof.
  unfold spec_job_preds, job_test.
  destruct (decide (hasEquity f = Some true)), (title f), (minSalary f);
    (erewrite db_decoded by (by vm_compute)); simpl;
    unfold Store.run_job_list; simpl;
    do 4 f_equal; apply filter_ext; intros c;
    rewrite ?andb_true_r, ?andb_assoc; reflexivity.
Qed.

Lemma company_findAll_run (f : CompanyFilter) (st : Store.State) :
  valid_filter f →
  exec Store.db (Company.findAll f) st
  = {| result :=
         inr (Store.company_obj
                <$> Store.order_by Store.c_name
                      (List.filter (company_test f) (Store.companies st)));
       store := st;
       issued :=
         [{| text := spec_listing Company.mainQuery " ORDER BY name"
                       (spec_company_preds f);
             params := spec_values (spec_company_preds f) |}] |}.
Proof.
  intros Hv. rewrite (company_findAll_statement f Hv). unfold exec.
  change (Query ?t ?ps Ret) with (rows ← query t ps; Ret rows).
  by rewrite exec_from_query, db_company_list.
Qed.

Lemma job_findAll_run (f : JobFilter) (st : Store.State) :
  exec Store.db (Job.findAll f) st
  = {| result :=
         inr (Store.joined_obj
                <$> Store.order_by (λ r : Store.Joined, Store.j_title r.1)
                      (List.filter (job_test f) (Store.joined st)));
       store := st;
       issued :=
         [{| text := spec_listing Job.mainQuery " ORDER BY title"
                       (spec_job_preds f);
             params := spec_values (spec_job_preds f) |}] |}.
Proof.
  rewrite (job_findAll_statement f). unfold exec.
  change (Query ?t ?ps Ret) with (rows ← query t ps; Ret rows).
  by rewrite exec_from_query, db_job_list_rows.
Qed.

(** X11: the reading operations never change the store: whatever the handle,
    the id or the filter, and whether they return or throw, [Company.get],
    [Job.get], [Company.findAll] and [Job.findAll] leave the state they
    found. *)
Theorem reads_leave_store (st : Store.State) (h : string) (i : Z)
    (cf : CompanyFilter) (jf : JobFilter) :
  store (exec Store.db (Company.get h) st) = st
  ∧ store (exec Store.db (Job.get i) st) = st
  ∧ store (exec Store.db (Company.findAll cf) st) = st
  ∧ store (exec Store.db (Job.findAll jf) st) = st.
Proof.
  split; [|split; [|split]].
  - unfold exec, Company.get. rewrite exec_from_query, db_company_select.
    by destruct (Store.find_company h st).
  - unfold exec, Job.get. rewrite exec_from_query, db_job_select.
    destruct (Store.find_job i st) as [j|]; [|done].
    cbn [first_row truthy negb]. cbv iota. rewrite exec_from_query.
    change (Js.get (VObj (Store.job_obj "companyHandle" j)) "companyHandle")
      with (VStr (Store.j_company_handle j)).
    change Job.companySql with Company.selectSql.
    rewrite db_company_select. reflexivity.
  - unfold Company.findAll.
    destruct (js_gt (minEmployees cf) (maxEmployees cf)) eqn:E; [done|].
    assert (valid_filter cf) as Hv.
    { intros lo hi Hlo Hhi. unfold js_gt in E. rewrite Hlo, Hhi in E.
      by apply Z.ltb_ge in E. }
    pose proof (company_findAll_run cf st Hv) as R.
    unfold Company.findAll in R. rewrite E in R. by rewrite R.
  - by rewrite job_findAll_run.
Qed.

(** Sorting keeps the rows and puts them in order. *)
Lemma elem_of_insert_by {A} (key : A → Value) (x y : A) (l : list A) :
  y ∈ Store.insert_by key x l ↔ y = x ∨ y ∈ l.
Proof.
  induction l as [|z l IH]; simpl.
  - by rewrite list_elem_of_singleton, elem_of_nil; intuition.
  - destruct (Store.text_le (key x) (key z)).
    + by rewrite !elem_of_cons.
    + rewrite !elem_of_cons, IH. tauto.
Qed.

Lemma elem_of_order_by {A} (key : A → Value) (y : A) (l : list A) :
  y ∈ Store.order_by key l ↔ y ∈ l.
Proof.
  unfold Store.order_by. induction l as [|x l IH]; simpl; [done|].
  by rewrite elem_of_insert_by, elem_of_cons, IH.
Qed.

Lemma text_le_total (a b : Value) :
  Store.text_le a b = false → Store.text_le b a = true.
Proof.
  destruct a, b; simpl; try done.
  intros H. destruct (String.leb_total s s0) as [E|E]; congruence.
Qed.

Lemma insert_by_ascending {A} (key : A → Value) (x : A) (l : list A) :
  ascending key l → ascending key (Store.insert_by key x l).
Proof.
  induction l as [|y l IH]; [done|].
  intros [Hy Hl]. simpl.
  destruct (Store.text_le (key x) (key y)) eqn:E; [by repeat split|].
  apply text_le_total in E. specialize (IH Hl).
  split; [|exact IH].
  destruct l as [|z l]; simpl; [done|].
  by destruct (Store.text_le (key x) (key z)).
Qed.

Lemma order_by_ascending {A} (key : A → Value) (l : list A) :
  ascending key (Store.order_by key l).
Proof.
  unfold Store.order_by. induction l as [|x l IH]; simpl; [done|].
  by apply insert_by_ascending.
Qed.

Lemma elem_of_joined (st : Store.State) (j : Store.JobRow) (c : Store.CompanyRow) :
  (j, c) ∈ Store.joined st
  ↔ j ∈ Store.jobs st
    ∧ Store.find_company (Store.j_company_handle j) st = Some c.
Proof.
  unfold Store.joined. rewrite list_elem_of_omap. split.
  - intros (j' & Hj' & E).
    destruct (Store.find_company (Store.j_company_handle j') st) eqn:Ec;
      simpl in E; [|done].
    injection E as <- <-. done.
  - intros [Hj Hc]. exists j. split; [done|]. by rewrite Hc.
Qed.

(** X12: on the reference store a valid company search returns the
    companies that meet it and no others: a company is listed exactly when it
    is in the store, its head count is known and within each bound that is
    present, and, for a name that is present and not empty, its name matches
    [%name%] without regard to case.  Each is listed with its five columns,
    and the listing is in ascending order of name. *)
Theorem company_findAll_rows (st : Store.State) (f : CompanyFilter) :
  valid_filter f →
  ∃ cs : list Store.CompanyRow,
    result (exec Store.db (Company.findAll f) st)
    = inr (Store.company_obj <$> cs)
    ∧ (∀ c, c ∈ cs ↔ c ∈ Store.companies st ∧ company_matches f c)
    ∧ ascending Store.c_name cs.
Proof.
  intros Hv. rewrite (company_findAll_run f st Hv). cbn [result].
  eexists. split; [reflexivity|]. split; [|apply order_by_ascending].
  intros c. rewrite elem_of_order_by, list_elem_of_In, filter_In.
  by rewrite <- list_elem_of_In, company_test_spec.
Qed.

Lemma company_findAll_rows_witness :
  let f := {| name := Some "c"; minEmployees := Some 1; maxEmployees := None |} in
  valid_filter f
  ∧ ∃ cs : list Store.CompanyRow,
      result (exec Store.db (Company.findAll f) Fixture.st)
      = inr (Store.company_obj <$> cs)
      ∧ (Fixture.c1 ∈ cs ↔ Fixture.c1 ∈ Store.companies Fixture.st
                           ∧ company_matches f Fixture.c1).
Proof.
  intros f.
  assert (valid_filter f) as Hv by (by intros lo hi [=] [=]).
  split; [exact Hv|].
  destruct (company_findAll_rows Fixture.st f Hv) as (cs & E & Hin & _).
  exists cs. split; [exact E | apply Hin].
Defined.

(** X13: on the reference store a job search returns the jobs that meet it
    and no others, each with the name of its company: a job is listed exactly
    when it is in the store with its company and has equity above zero if
    [hasEquity] is [true], a title that matches [%title%] if a title is
    given, a known salary of at least the minimum if one is given.  With
    [hasEquity] false or absent the equity is not looked at.  The listing is
    in ascending order of title. *)
Theorem job_findAll_rows (st : Store.State) (f : JobFilter) :
  ∃ rs : list Store.Joined,
    result (exec Store.db (Job.findAll f) st)
    = inr ((λ r, Store.job_obj "companyHandle" r.1
                 ++ [("name", Store.c_name r.2)]) <$> rs)
    ∧ (∀ j c, (j, c) ∈ rs
              ↔ j ∈ Store.jobs st
                ∧ Store.find_company (Store.j_company_handle j) st = Some c
                ∧ job_matches f j)
    ∧ ascending (λ r : Store.Joined, Store.j_title r.1) rs.
Proof.
  rewrite (job_findAll_run f st). cbn [result].
  eexists. split; [reflexivity|]. split; [|apply order_by_ascending].
  intros j c. rewrite elem_of_order_by, list_elem_of_In, filter_In.
  rewrite <- list_elem_of_In, elem_of_joined, job_test_spec. simpl. tauto.
Qed.

(** ** The tests of the repository and the examples of the specification *)

(** The test of the builder. *)
Example sqlForPartialUpdate_test :
  Sql.sqlForPartialUpdate
    [("firstName", VStr "Jareth"); ("lastName", VStr "The Cat")]
    {[ "firstName" := "first_name"; "lastName" := "last_name" ]}
  = inr {| Sql.setCols :=
             dq +:+ "first_name" +:+ dq +:+ "=$1, "
                +:+ dq +:+ "last_name" +:+ dq +:+ "=$2";
           Sql.values := [VStr "Jareth"; VStr "The Cat"] |}.
Proof. by vm_compute. Qed.

(** Filter composition: a minimum of ten employees finds the big company,
    the name [c1] finds [C1] whatever the case. *)
Example company_findAll_examples :
  result (exec Store.db
            (Company.findAll {| name := None; minEmployees := Some 10;
                                maxEmployees := None |}) Fixture.st)
  = inr [Store.company_obj Fixture.c2]
  ∧ result (exec Store.db
              (Company.findAll {| name := Some "c1"; minEmployees := None;
                                  maxEmployees := None |}) Fixture.st)
    = inr [Store.company_obj Fixture.c1]
  ∧ result (exec Store.db
              (Company.findAll {| name := None; minEmployees := None;
                                  maxEmployees := None |}) Fixture.st)
    = inr [Store.company_obj Fixture.c2; Store.company_obj Fixture.c1].
Proof. split; [|split]; by vm_compute. Qed.

(** The equity filter: [hasEquity: true] keeps the job with equity 0.1 only;
    without it all three jobs are listed, each with the name of its
    company. *)
Example job_findAll_examples :
  result (exec Store.db
            (Job.findAll {| title := None; minSalary := None;
                            hasEquity := Some true |}) Fixture.st)
  = inr [Store.joined_obj (Fixture.j1, Fixture.c1)]
  ∧ result (exec Store.db
              (Job.findAll {| title := None; minSalary := None;
                              hasEquity := None |}) Fixture.st)
    = inr [Store.joined_obj (Fixture.j1, Fixture.c1);
           Store.joined_obj (Fixture.j2, Fixture.c1);
           Store.joined_obj (Fixture.j3, Fixture.c1)]
  ∧ result (exec Store.db
              (Job.findAll {| title := Some "j"; minSalary := Some 3;
                              hasEquity := Some false |}) Fixture.st)
    = inr [Store.joined_obj (Fixture.j3, Fixture.c1)].
Proof. split; [|split]; by vm_compute. Qed.

(** An update of an existing job changes the fields given and returns the
    row with its flat handle. *)
Example job_update_example :
  result (exec Store.db
            (Job.update 1 [("title", VStr "new title"); ("salary", VNum 100);
                           ("equity", VStr "0.0")]) Fixture.st)
  = inr (VObj [("id", VNum 1); ("title", VStr "new title");
               ("salary", VNum 100); ("equity", VStr "0.0");
               ("companyHandle", VStr "c1")]).
Proof. by vm_compute. Qed.

(** The equity is a numeric: a decimal text comes back in the form of a
    numeric, a text that is no decimal is refused by the store. *)
Example job_update_equity_examples :
  result (exec Store.db (Job.update 1 [("equity", VStr ".5")]) Fixture.st)
  = inr (VObj [("id", VNum 1); ("title", VStr "J1"); ("salary", VNum 1);
               ("equity", VStr "0.5"); ("companyHandle", VStr "c1")])
  ∧ result (exec Store.db (Job.update 1 [("equity", VStr "abc")]) Fixture.st)
    = inl (DbError "column or value rejected")
  ∧ Store.positive_decimal (VStr "0.000") = false
  ∧ Store.positive_decimal (VStr "0.010") = true
  ∧ Store.positive_decimal (VStr "abc7") = false.
Proof. repeat split; by vm_compute. Qed.
